(** * The grv configuration parser (cmd/grv/config_parse.go)

    A shallow embedding of [ConfigParser] and of the command constructors,
    followed by the properties of the parser driver, of the recovery step and
    of the error formatting.

    The scanner ([ConfigScanner]), the token type ([ConfigToken],
    [ConfigTokenType], [ConfigTokenName]) and [ContainerOrientation] are used
    by config_parse.go but declared elsewhere.  Tokens carry the fields the
    parser reads; the scanner is the sequence of results its [Scan] method is
    going to hand out, followed by end-of-input tokens; [ConfigTokenName] is
    a parameter. *)

From Stdlib Require Import String Ascii List NArith Bool Arith Lia Permutation.
From Stdlib Require Import DecimalString.
Import ListNotations.
Local Open Scope list_scope.
Local Open Scope string_scope.

(** ** Tokens *)

(** Modelled from the spec: [ConfigTokenType] is declared with the scanner,
    outside config_parse.go; these are the seven kinds of token of the
    specification, under the names the parser uses for them. *)
Inductive ConfigTokenType : Type :=
| CtkInvalid
| CtkWord
| CtkOption
| CtkWhiteSpace
| CtkComment
| CtkTerminator
| CtkEOF.

Definition ConfigTokenType_eqb (a b : ConfigTokenType) : bool :=
  match a, b with
  | CtkInvalid, CtkInvalid
  | CtkWord, CtkWord
  | CtkOption, CtkOption
  | CtkWhiteSpace, CtkWhiteSpace
  | CtkComment, CtkComment
  | CtkTerminator, CtkTerminator
  | CtkEOF, CtkEOF => true
  | _, _ => false
  end.

(** A Go [error] is represented by the text its [Error()] method returns. *)
Definition error : Type := string.

(** Modelled from the spec: [ConfigScannerPos], declared with the scanner,
    is the start position of a token; line and column are Go [uint]s. *)
Record ConfigScannerPos : Type := { line : N; col : N }.

(** Modelled from the spec: [ConfigToken], declared with the scanner, with
    the fields that the parser reads.  [err] is the lexical error embedded
    in the token, [None] for Go's nil. *)
Record ConfigToken : Type := {
  tokenType : ConfigTokenType;
  value : string;
  startPos : ConfigScannerPos;
  err : option error
}.

(** ** Commands *)

(** Modelled from the spec: [ContainerOrientation] is declared outside
    config_parse.go; the three orientations of a split view. *)
Inductive ContainerOrientation : Type :=
| CoVertical
| CoHorizontal
| CoDynamic.

(** [ThemeCommand]: every field is a token pointer that stays nil until the
    matching option is seen. *)
Record ThemeCommand : Type := {
  name : option ConfigToken;
  component : option ConfigToken;
  bgcolor : option ConfigToken;
  fgcolor : option ConfigToken
}.

(** The implementations of the [ConfigCommand] interface.  The arguments of
    each constructor are the fields of the Go struct, in declaration order. *)
Inductive ConfigCommand : Type :=
| SetCommand (variable val : ConfigToken)
| ThemeCmd (themeCommand : ThemeCommand)
| MapCommand (view from to : ConfigToken)
| UnmapCommand (view from : ConfigToken)
| QuitCommand
| NewTabCommand (tabName : ConfigToken)
| RemoveTabCommand
| AddViewCommand (view : ConfigToken) (args : list ConfigToken)
| SplitViewCommand (orientation : ContainerOrientation)
                   (view : ConfigToken) (args : list ConfigToken).

Definition setCommand : string := "set".
Definition themeCommand : string := "theme".
Definition mapCommand : string := "map".
Definition unmapCommand : string := "unmap".
Definition quitCommand : string := "q".
Definition addtabCommand : string := "addtab".
Definition removetabCommand : string := "rmtab".
Definition addviewCommand : string := "addview".
Definition vsplitCommand : string := "vsplit".
Definition hsplitCommand : string := "hsplit".
Definition splitCommand : string := "split".

(** ** Formatting *)

(** The double quote character. *)
Definition dquote : string := String "034"%char EmptyString.

(** [%v] applied to a string between escaped quotes. *)
Definition quoted (s : string) : string := dquote ++ s ++ dquote.

(** [%v] applied to a [uint]: its decimal digits. *)
Definition fmtUint (n : N) : string := NilEmpty.string_of_uint (N.to_uint n).

(** [generateConfigError].  [message] stands for the value of
    [fmt.Sprintf(errorMessage, args...)], which every call site below writes
    out as a concatenation. *)
Definition generateConfigError
  (inputSource : string) (token : ConfigToken) (message : string) : error :=
  (if negb (String.eqb inputSource EmptyString)
   then inputSource ++ ":"
        ++ (fmtUint (line (startPos token)) ++ ":"
            ++ fmtUint (col (startPos token)) ++ " ")
   else EmptyString)
  ++ message
  ++ match err token with
     | Some lexError => ": " ++ lexError
     | None => EmptyString
     end.

(** ** The scanner *)

(** Modelled from the spec: what one call to [ConfigScanner.Scan] returns,
    the next token or a failure with an error. *)
Definition ScanResult : Type := (ConfigToken + error)%type.

(** Modelled from the spec: [ConfigScanner] is a pull-based source of
    tokens; it is represented by the results it has yet to produce. *)
Definition ConfigScanner : Type := list ScanResult.

(** A command and its error, as a constructor returns them; [None] where
    the Go function panics (index out of range). *)
Definition Constructed : Type :=
  option (option ConfigCommand * option error).

(** The three results of [Parse] and [parseCommand]:
    [(command, eof, err)]. *)
Definition ParseResult : Type :=
  (option ConfigCommand * bool * option error)%type.

Fixpoint lookup {A : Type} (key : string) (m : list (string * A)) : option A :=
  match m with
  | [] => None
  | (k, a) :: m' => if String.eqb key k then Some a else lookup key m'
  end.

(** The tokens of a sequence of (option, value) pairs, in order. *)
Fixpoint flattenPairs (pairs : list (ConfigToken * ConfigToken))
  : list ConfigToken :=
  match pairs with
  | [] => []
  | (optionToken, valueToken) :: pairs' =>
      optionToken :: valueToken :: flattenPairs pairs'
  end.

(** ** Sample input *)

Module Sample.

Definition at_ (l c : N) : ConfigScannerPos := {| line := l; col := c |}.

Definition token (ty : ConfigTokenType) (text : string) (l c : N)
  : ConfigToken :=
  {| tokenType := ty; value := text; startPos := at_ l c; err := None |}.

Definition word : string -> N -> N -> ConfigToken := token CtkWord.
Definition option_ : string -> N -> N -> ConfigToken := token CtkOption.
Definition space : N -> N -> ConfigToken := token CtkWhiteSpace " ".
Definition newline : N -> N -> ConfigToken :=
  token CtkTerminator (String "010"%char EmptyString).

(** The names of the token types, as the scanner's table could give them. *)
Definition tokenName (ty : ConfigTokenType) : string :=
  match ty with
  | CtkInvalid => "Invalid"
  | CtkWord => "Word"
  | CtkOption => "Option"
  | CtkWhiteSpace => "White Space"
  | CtkComment => "Comment"
  | CtkTerminator => "Terminator"
  | CtkEOF => "EOF"
  end.

(** A scanner that hands out the given tokens and never fails. *)
Definition tokensOf (tokens : list ConfigToken) : ConfigScanner :=
  map inl tokens.

(** [set <failure> a b \n q]: the scanner fails after the command name. *)
Definition brokenSet : ConfigScanner :=
  [ inl (word "set" 1 1); inr "read error"; inl (word "a" 1 5);
    inl (word "b" 1 7); inl (newline 1 8); inl (word "q" 2 1) ].

(** An empty line, then [set foo bar]. *)
Definition setLine : ConfigScanner :=
  tokensOf [ newline 1 1; word "set" 2 1; space 2 4; word "foo" 2 5;
             space 2 8; word "bar" 2 9; newline 2 12 ].

(** [theme --bogus X --name A --component C --bgcolor 1] *)
Definition bogusPairs : list (ConfigToken * ConfigToken) :=
  [ (option_ "--bogus" 1 7, word "X" 1 15);
    (option_ "--name" 1 17, word "A" 1 24);
    (option_ "--component" 1 26, word "C" 1 38);
    (option_ "--bgcolor" 1 40, word "1" 1 50) ].

Definition themeBogus : ConfigScanner :=
  tokensOf (word "theme" 1 1 :: flattenPairs bogusPairs).

(** [--bgcolor 1 --name X --fgcolor 2 --component Y] *)
Definition themePairs : list (ConfigToken * ConfigToken) :=
  [ (option_ "--bgcolor" 1 7, word "1" 1 17);
    (option_ "--name" 1 19, word "X" 1 26);
    (option_ "--fgcolor" 1 28, word "2" 1 38);
    (option_ "--component" 1 40, word "Y" 1 52) ].

(** [map a], a line of its own, then [set x y]. *)
Definition mapThenSet : ConfigScanner :=
  tokensOf [ word "map" 1 1; space 1 4; word "a" 1 5; newline 1 6;
             word "set" 2 1; space 2 4; word "x" 2 5; space 2 6;
             word "y" 2 7; newline 2 8 ].

(** The second line of [mapThenSet]. *)
Definition setXY : ConfigScanner :=
  tokensOf [ word "set" 2 1; space 2 4; word "x" 2 5; space 2 6;
             word "y" 2 7; newline 2 8 ].

(** [set foo] and nothing more. *)
Definition setTruncated : ConfigScanner :=
  tokensOf [ word "set" 1 1; space 1 4; word "foo" 1 5 ].

(** [addview log --flag] and nothing more. *)
Definition addviewAtEnd : ConfigScanner :=
  tokensOf [ word "addview" 1 1; space 1 8; word "log" 1 9; space 1 12;
             option_ "--flag" 1 13 ].

(** [bogus arg] *)
Definition bogusLine : ConfigScanner :=
  tokensOf [ word "bogus" 1 1; space 1 6; word "arg" 1 7; newline 1 10 ].

(** [set a b c]: one word more than [set] takes. *)
Definition setSurplus : ConfigScanner :=
  tokensOf [ word "set" 1 1; space 1 4; word "a" 1 5; space 1 6;
             word "b" 1 7; space 1 8; word "c" 1 9; newline 1 10 ].

(** A token that the scanner flags: an unterminated string. *)
Definition unterminated : ConfigToken :=
  {| tokenType := CtkInvalid; value := "'bar"; startPos := at_ 1 9;
     err := Some "Unterminated string" |}.

(** [set foo 'bar], the last word being an unterminated string. *)
Definition setUnterminated : ConfigScanner :=
  tokensOf [ word "set" 1 1; space 1 4; word "foo" 1 5; space 1 8;
             unterminated; newline 1 13 ].

(** A comment, blank lines and white space. *)
Definition blankLines : ConfigScanner :=
  tokensOf [ token CtkComment "# colours" 1 1; newline 1 10; space 2 1;
             newline 2 2 ].

(** [--name x] at the start of a line. *)
Definition optionLine : ConfigScanner :=
  tokensOf [ option_ "--name" 1 1; space 1 7; word "x" 1 8; newline 1 9;
             word "q" 2 1 ].

End Sample.

Section Parser.

(** [parser.inputSource]. *)
Variable inputSource : string.

(** [ConfigTokenName], the printable name of a token type. *)
Variable ConfigTokenName : ConfigTokenType -> string.

(** Where the input ends: once the scanner has handed out everything, it
    answers every further call with an end-of-input token at this
    position. *)
Variable eofPos : ConfigScannerPos.

Definition eofToken : ConfigToken :=
  {| tokenType := CtkEOF; value := EmptyString;
     startPos := eofPos; err := None |}.

(** Modelled from the spec: [ConfigScanner.Scan] produces the next token or
    fails; at the end of the input it produces an end-of-input token, again
    on every further call. *)
Definition Scan (scanner : ConfigScanner) : ScanResult * ConfigScanner :=
  match scanner with
  | [] => (inl eofToken, [])
  | r :: scanner' => (r, scanner')
  end.

Definition isWhiteSpaceOrComment (token : ConfigToken) : bool :=
  match tokenType token with
  | CtkWhiteSpace | CtkComment => true
  | _ => false
  end.

(** [parser.scan]: the next token that is neither white space nor a
    comment.  Each round of the loop takes one result from the scanner. *)
Fixpoint scan (scanner : ConfigScanner) : ScanResult * ConfigScanner :=
  match scanner with
  | [] => Scan []
  | inr e :: scanner' => (inr e, scanner')
  | inl token :: scanner' =>
      if isWhiteSpaceOrComment token then scan scanner'
      else (inl token, scanner')
  end.

Definition generateParseError (token : ConfigToken) (message : string) : error :=
  generateConfigError inputSource token message.

(** *** The command constructors

    A constructor gets the parser (here: [inputSource], through
    [generateParseError]), the command token and the argument tokens. *)

Definition commandConstructor : Type :=
  ConfigToken -> list ConfigToken -> Constructed.

Definition setCommandConstructor : commandConstructor :=
  fun commandToken tokens =>
    match tokens with
    | t0 :: t1 :: _ => Some (Some (SetCommand t0 t1), None)
    | _ => None
    end.

(** The closures of [optionSetters]: each one assigns one field of the
    theme command under construction. *)
Definition optionSetters
  : list (string * (ConfigToken -> ThemeCommand -> ThemeCommand)) :=
  [ ("--name", fun token c =>
       {| name := Some token; component := component c;
          bgcolor := bgcolor c; fgcolor := fgcolor c |});
    ("--component", fun token c =>
       {| name := name c; component := Some token;
          bgcolor := bgcolor c; fgcolor := fgcolor c |});
    ("--bgcolor", fun token c =>
       {| name := name c; component := component c;
          bgcolor := Some token; fgcolor := fgcolor c |});
    ("--fgcolor", fun token c =>
       {| name := name c; component := component c;
          bgcolor := bgcolor c; fgcolor := Some token |}) ].

(** The loop [for i := 0; i+1 < len(tokens); i += 2] of
    [themeCommandConstructor], on the tokens from index [i] on. *)
Fixpoint themeCommandLoop
  (tokens : list ConfigToken) (c : ThemeCommand) : Constructed :=
  match tokens with
  | optionToken :: valueToken :: tokens' =>
      match lookup (value optionToken) optionSetters with
      | None =>
          Some (None,
                Some (generateParseError optionToken
                        ("Invalid option for theme command: "
                         ++ quoted (value optionToken))))
      | Some optionSetter =>
          themeCommandLoop tokens' (optionSetter valueToken c)
      end
  | _ => Some (Some (ThemeCmd c), None)
  end.

Definition themeCommandConstructor : commandConstructor :=
  fun commandToken tokens =>
    themeCommandLoop tokens
      {| name := None; component := None; bgcolor := None; fgcolor := None |}.

Definition mapCommandConstructor : commandConstructor :=
  fun commandToken tokens =>
    match tokens with
    | t0 :: t1 :: t2 :: _ => Some (Some (MapCommand t0 t1 t2), None)
    | _ => None
    end.

Definition unmapCommandConstructor : commandConstructor :=
  fun commandToken tokens =>
    match tokens with
    | t0 :: t1 :: _ => Some (Some (UnmapCommand t0 t1), None)
    | _ => None
    end.

Definition quitCommandConstructor : commandConstructor :=
  fun commandToken tokens => Some (Some QuitCommand, None).

Definition newTabCommandConstructor : commandConstructor :=
  fun commandToken tokens =>
    match tokens with
    | t0 :: _ => Some (Some (NewTabCommand t0), None)
    | _ => None
    end.

Definition newRemoveTabCommandConstructor : commandConstructor :=
  fun commandToken tokens => Some (Some RemoveTabCommand, None).

(** ["Invalid %[1]v command. Usage: %[1]v [VIEW] [ARGS...]"] *)
Definition usageMessage (command : string) : string :=
  "Invalid " ++ command ++ " command. Usage: " ++ command
  ++ " [VIEW] [ARGS...]".

Definition addViewCommandConstructor : commandConstructor :=
  fun commandToken tokens =>
    match tokens with
    | [] =>
        let addViewCommand := value commandToken in
        Some (None,
              Some (generateParseError commandToken
                      (usageMessage addViewCommand)))
    | t0 :: rest => Some (Some (AddViewCommand t0 rest), None)
    end.

Definition splitViewCommandConstructor : commandConstructor :=
  fun commandToken tokens =>
    let splitViewCommand := value commandToken in
    match tokens with
    | [] =>
        Some (None,
              Some (generateParseError commandToken
                      (usageMessage splitViewCommand)))
    | t0 :: rest =>
        let unrecognised :=
          Some (None,
                Some (generateParseError commandToken
                        ("Unrecognised command: " ++ splitViewCommand))) in
        if String.eqb splitViewCommand splitCommand then
          Some (Some (SplitViewCommand CoDynamic t0 rest), None)
        else if String.eqb splitViewCommand hsplitCommand then
          Some (Some (SplitViewCommand CoHorizontal t0 rest), None)
        else if String.eqb splitViewCommand vsplitCommand then
          Some (Some (SplitViewCommand CoVertical t0 rest), None)
        else unrecognised
    end.

(** *** The registry *)

Record commandDescriptor : Type := {
  tokenTypes : list ConfigTokenType;
  varArgs : bool;
  constructor : commandConstructor
}.

Definition commandDescriptors : list (string * commandDescriptor) :=
  [ (setCommand,
     {| tokenTypes := [CtkWord; CtkWord]; varArgs := false;
        constructor := setCommandConstructor |});
    (themeCommand,
     {| tokenTypes := [CtkOption; CtkWord; CtkOption; CtkWord;
                       CtkOption; CtkWord; CtkOption; CtkWord];
        varArgs := false;
        constructor := themeCommandConstructor |});
    (mapCommand,
     {| tokenTypes := [CtkWord; CtkWord; CtkWord]; varArgs := false;
        constructor := mapCommandConstructor |});
    (unmapCommand,
     {| tokenTypes := [CtkWord; CtkWord]; varArgs := false;
        constructor := unmapCommandConstructor |});
    (quitCommand,
     {| tokenTypes := []; varArgs := false;
        constructor := quitCommandConstructor |});
    (addtabCommand,
     {| tokenTypes := [CtkWord]; varArgs := false;
        constructor := newTabCommandConstructor |});
    (removetabCommand,
     {| tokenTypes := []; varArgs := false;
        constructor := newRemoveTabCommandConstructor |});
    (addviewCommand,
     {| tokenTypes := []; varArgs := true;
        constructor := addViewCommandConstructor |});
    (vsplitCommand,
     {| tokenTypes := []; varArgs := true;
        constructor := splitViewCommandConstructor |});
    (hsplitCommand,
     {| tokenTypes := []; varArgs := true;
        constructor := splitViewCommandConstructor |});
    (splitCommand,
     {| tokenTypes := []; varArgs := true;
        constructor := splitViewCommandConstructor |}) ].

(** *** The parser driver

    The unbounded [for] loops that call [scan] are bounded by a fuel
    which the entry points set above the number of results the scanner
    still holds; [None] stands for a call that does not return (a panic in
    a constructor, or no fuel left). *)

Definition isTerminatorOrEOF (token : ConfigToken) : bool :=
  match tokenType token with
  | CtkTerminator | CtkEOF => true
  | _ => false
  end.

Fixpoint discardLoop (fuel : nat) (scanner : ConfigScanner) : ConfigScanner :=
  match fuel with
  | O => scanner
  | S fuel' =>
      match scan scanner with
      | (inr _, scanner') => scanner'
      | (inl token, scanner') =>
          if isTerminatorOrEOF token then scanner'
          else discardLoop fuel' scanner'
      end
  end.

Definition discardTokensUntilNextCommand
  (scanner : ConfigScanner) : ConfigScanner :=
  discardLoop (S (length scanner)) scanner.

(** The result of a constructor, as [parseCommand] and
    [parseVarArgsCommand] return it: [eof] keeps its zero value. *)
Definition construct
  (d : commandDescriptor) (commandToken : ConfigToken)
  (tokens : list ConfigToken) (scanner : ConfigScanner)
  : option (ParseResult * ConfigScanner) :=
  match constructor d commandToken tokens with
  | None => None
  | Some (command, e) => Some ((command, false, e), scanner)
  end.

Fixpoint varArgsLoop
  (fuel : nat) (d : commandDescriptor) (commandToken : ConfigToken)
  (tokens : list ConfigToken) (scanner : ConfigScanner)
  : option (ParseResult * ConfigScanner) :=
  match fuel with
  | O => None
  | S fuel' =>
      match scan scanner with
      | (inr e, scanner') => Some ((None, false, Some e), scanner')
      | (inl token, scanner') =>
          match err token with
          | Some _ =>
              Some ((None, false,
                     Some (generateParseError token "Syntax Error")),
                    scanner')
          | None =>
              match tokenType token with
              | CtkEOF | CtkTerminator =>
                  construct d commandToken tokens scanner'
              | _ =>
                  varArgsLoop fuel' d commandToken
                    (tokens ++ [token])%list scanner'
              end
          end
      end
  end.

Definition parseVarArgsCommand
  (d : commandDescriptor) (commandToken : ConfigToken)
  (scanner : ConfigScanner) : option (ParseResult * ConfigScanner) :=
  varArgsLoop (S (length scanner)) d commandToken [] scanner.

(** The loop [for i := 0; i < len(commandDescriptor.tokenTypes); i++] of
    [parseCommand], on the token types from index [i] on: an early
    return ([inl]), or all the matched tokens ([inr]). *)
Fixpoint matchTokenTypes
  (types : list ConfigTokenType) (tokens : list ConfigToken)
  (scanner : ConfigScanner)
  : (ParseResult + list ConfigToken) * ConfigScanner :=
  match types with
  | [] => (inr tokens, scanner)
  | expectedConfigTokenType :: types' =>
      match scan scanner with
      | (inr e, scanner') => (inl (None, false, Some e), scanner')
      | (inl token, scanner') =>
          match err token with
          | Some _ =>
              (inl (None, false,
                    Some (generateParseError token "Syntax Error")),
               scanner')
          | None =>
              if ConfigTokenType_eqb (tokenType token) CtkEOF then
                (inl (None, true,
                      Some (generateParseError token "Unexpected EOF")),
                 scanner')
              else if negb (ConfigTokenType_eqb (tokenType token)
                              expectedConfigTokenType) then
                (inl (None, false,
                      Some (generateParseError token
                              ("Expected "
                               ++ ConfigTokenName expectedConfigTokenType
                               ++ " but got "
                               ++ ConfigTokenName (tokenType token)
                               ++ ": " ++ quoted (value token)))),
                 scanner')
              else matchTokenTypes types' (tokens ++ [token])%list scanner'
          end
      end
  end.

Definition parseCommand
  (commandToken : ConfigToken) (scanner : ConfigScanner)
  : option (ParseResult * ConfigScanner) :=
  match lookup (value commandToken) commandDescriptors with
  | None =>
      Some ((None, false,
             Some (generateParseError commandToken
                     ("Invalid command " ++ quoted (value commandToken)))),
            scanner)
  | Some d =>
      if varArgs d then parseVarArgsCommand d commandToken scanner
      else
        match matchTokenTypes (tokenTypes d) [] scanner with
        | (inl r, scanner') => Some (r, scanner')
        | (inr tokens, scanner') => construct d commandToken tokens scanner'
        end
  end.

(** The end of [Parse]: [if err != nil] the tokens up to the next command
    are discarded, then the three results are returned. *)
Definition finishParse
  (r : ParseResult) (scanner : ConfigScanner) : ParseResult * ConfigScanner :=
  match r with
  | (_, _, Some _) => (r, discardTokensUntilNextCommand scanner)
  | (_, _, None) => (r, scanner)
  end.

Fixpoint ParseLoop
  (fuel : nat) (scanner : ConfigScanner)
  : option (ParseResult * ConfigScanner) :=
  match fuel with
  | O => None
  | S fuel' =>
      match scan scanner with
      | (inr e, scanner') => Some ((None, false, Some e), scanner')
      | (inl token, scanner') =>
          match tokenType token with
          | CtkWord =>
              match parseCommand token scanner' with
              | None => None
              | Some (r, scanner'') => Some (finishParse r scanner'')
              end
          | CtkTerminator => ParseLoop fuel' scanner'
          | CtkEOF => Some (finishParse (None, true, None) scanner')
          | CtkOption =>
              Some (finishParse
                      (None, false,
                       Some (generateParseError token
                               ("Unexpected Option " ++ quoted (value token))))
                      scanner')
          | CtkInvalid =>
              Some (finishParse
                      (None, false,
                       Some (generateParseError token "Syntax Error"))
                      scanner')
          | _ =>
              Some (finishParse
                      (None, false,
                       Some (generateParseError token
                               ("Unexpected token " ++ quoted (value token))))
                      scanner')
          end
      end
  end.

(** [Parse]: the next command of the input, with the scanner it leaves. *)
Definition Parse (scanner : ConfigScanner)
  : option (ParseResult * ConfigScanner) :=
  ParseLoop (S (length scanner)) scanner.

(** [parseVarArgsCommand] with the tokens accumulated so far. *)
Definition varArgsFrom
  (d : commandDescriptor) (commandToken : ConfigToken)
  (tokens : list ConfigToken) (scanner : ConfigScanner)
  : option (ParseResult * ConfigScanner) :=
  varArgsLoop (S (length scanner)) d commandToken tokens scanner.

(** What [Parse] does with the first significant token. *)
Definition dispatch (token : ConfigToken) (scanner : ConfigScanner)
  : option (ParseResult * ConfigScanner) :=
  match tokenType token with
  | CtkWord =>
      match parseCommand token scanner with
      | None => None
      | Some (r, scanner') => Some (finishParse r scanner')
      end
  | CtkTerminator => Parse scanner
  | CtkEOF => Some (finishParse (None, true, None) scanner)
  | CtkOption =>
      Some (finishParse
              (None, false,
               Some (generateParseError token
                       ("Unexpected Option " ++ quoted (value token))))
              scanner)
  | CtkInvalid =>
      Some (finishParse
              (None, false, Some (generateParseError token "Syntax Error"))
              scanner)
  | _ =>
      Some (finishParse
              (None, false,
               Some (generateParseError token
                       ("Unexpected token " ++ quoted (value token))))
              scanner)
  end.

(** ** Reading the input

    [scans scanner tokens scanner'] : the next significant tokens that
    [scan] delivers from [scanner] are [tokens], and [scanner'] is what is
    left after them. *)
Inductive scans : ConfigScanner -> list ConfigToken -> ConfigScanner -> Prop :=
| scans_nil scanner : scans scanner [] scanner
| scans_cons scanner token scanner1 tokens scanner' :
    scan scanner = (inl token, scanner1) ->
    scans scanner1 tokens scanner' ->
    scans scanner (token :: tokens) scanner'.

(** A token of the expected type that carries no lexical error. *)
Definition matchesType (expected : ConfigTokenType) (token : ConfigToken) : Prop :=
  err token = None /\ tokenType token = expected.

(** A token that a variable-arity command accumulates. *)
Definition argToken (token : ConfigToken) : Prop :=
  err token = None /\ isTerminatorOrEOF token = false.

(** A token that ends the arguments of a variable-arity command. *)
Definition endToken (token : ConfigToken) : Prop :=
  err token = None /\ isTerminatorOrEOF token = true.

Definition isTerminator (token : ConfigToken) : Prop :=
  tokenType token = CtkTerminator.

(** After the argument tokens [args] the parser of a command with
    descriptor [d] asks the scanner for one more argument token. *)
Definition readsOn (d : commandDescriptor) (args : list ConfigToken) : Prop :=
  if varArgs d then Forall argToken args
  else exists types1 expected types2,
      tokenTypes d = (types1 ++ expected :: types2)%list
      /\ Forall2 matchesType types1 args.

(** ** Option/value pairs of the theme command *)

(** The text of the option of a pair. *)
Definition optionText (pair : ConfigToken * ConfigToken) : string :=
  value (fst pair).

(** The four switches of the theme command. *)
Definition isThemeOption (text : string) : bool :=
  existsb (String.eqb text) ["--name"; "--component"; "--bgcolor"; "--fgcolor"].

(** The field of a theme command that an option names. *)
Definition themeField (text : string) (c : ThemeCommand) : option ConfigToken :=
  if String.eqb text "--name" then name c
  else if String.eqb text "--component" then component c
  else if String.eqb text "--bgcolor" then bgcolor c
  else if String.eqb text "--fgcolor" then fgcolor c
  else None.

(** One round of the loop of [themeCommandConstructor] on a pair with a
    known option. *)
Definition assign (c : ThemeCommand) (pair : ConfigToken * ConfigToken)
  : ThemeCommand :=
  match lookup (optionText pair) optionSetters with
  | Some optionSetter => optionSetter (snd pair) c
  | None => c
  end.

Definition emptyTheme : ThemeCommand :=
  {| name := None; component := None; bgcolor := None; fgcolor := None |}.

(** [contains sub s]: the text [sub] occurs in [s]. *)
Definition contains (sub s : string) : Prop :=
  exists before after, s = before ++ sub ++ after.

(** ** What a well-formed command line stands for *)

(** The value that follows the last occurrence of the option [text] in a
    sequence of option/value tokens. *)
Fixpoint valueOfOption (text : string) (tokens : list ConfigToken)
  : option ConfigToken :=
  match tokens with
  | optionToken :: valueToken :: tokens' =>
      match valueOfOption text tokens' with
      | Some later => Some later
      | None =>
          if String.eqb (value optionToken) text then Some valueToken
          else None
      end
  | _ => None
  end.

(** Every option of a sequence of option/value tokens is one of the four
    switches. *)
Fixpoint optionsRecognised (tokens : list ConfigToken) : bool :=
  match tokens with
  | optionToken :: _ :: tokens' =>
      isThemeOption (value optionToken) && optionsRecognised tokens'
  | _ => true
  end.

(** The command that a command name and its argument tokens denote: the
    variant of the name, with the tokens as its fields in the order they
    were given (for [theme]: by the name of the option). *)
Definition expectedCommand (commandName : string) (args : list ConfigToken)
  : option ConfigCommand :=
  if String.eqb commandName "set" then
    match args with
    | [variable; val] => Some (SetCommand variable val)
    | _ => None
    end
  else if String.eqb commandName "theme" then
    match args with
    | [_; _; _; _; _; _; _; _] =>
        Some (ThemeCmd {| name := valueOfOption "--name" args;
                          component := valueOfOption "--component" args;
                          bgcolor := valueOfOption "--bgcolor" args;
                          fgcolor := valueOfOption "--fgcolor" args |})
    | _ => None
    end
  else if String.eqb commandName "map" then
    match args with
    | [view; from; to] => Some (MapCommand view from to)
    | _ => None
    end
  else if String.eqb commandName "unmap" then
    match args with
    | [view; from] => Some (UnmapCommand view from)
    | _ => None
    end
  else if String.eqb commandName "q" then
    match args with
    | [] => Some QuitCommand
    | _ => None
    end
  else if String.eqb commandName "addtab" then
    match args with
    | [tabName] => Some (NewTabCommand tabName)
    | _ => None
    end
  else if String.eqb commandName "rmtab" then
    match args with
    | [] => Some RemoveTabCommand
    | _ => None
    end
  else if String.eqb commandName "addview" then
    match args with
    | view :: rest => Some (AddViewCommand view rest)
    | [] => None
    end
  else if String.eqb commandName "vsplit" then
    match args with
    | view :: rest => Some (SplitViewCommand CoVertical view rest)
    | [] => None
    end
  else if String.eqb commandName "hsplit" then
    match args with
    | view :: rest => Some (SplitViewCommand CoHorizontal view rest)
    | [] => None
    end
  else if String.eqb commandName "split" then
    match args with
    | view :: rest => Some (SplitViewCommand CoDynamic view rest)
    | [] => None
    end
  else None.

(** The argument tokens [args] match the grammar of the descriptor [d]:
    the expected types in order and number, or, for a variable-arity
    command, at least one token. *)
Definition satisfiesGrammar
  (d : commandDescriptor) (args : list ConfigToken) : Prop :=
  if varArgs d then args <> [] /\ Forall argToken args
  else Forall2 matchesType (tokenTypes d) args.

(** ** The errors of the parser *)




(** ** Further notions about the input *)

(** The names under which a command is registered. *)
Definition commandNames : list string := map fst commandDescriptors.

(** A result of the scanner that [scan] does not skip. *)
Definition significant (r : ScanResult) : bool :=
  match r with
  | inl token => negb (isWhiteSpaceOrComment token)
  | inr _ => true
  end.

(** The scanner without its white space and comments. *)
Definition strip (scanner : ConfigScanner) : ConfigScanner :=
  filter significant scanner.

(** White space, a comment or a terminator. *)
Definition blank (r : ScanResult) : bool :=
  match r with
  | inl token =>
      match tokenType token with
      | CtkWhiteSpace | CtkComment | CtkTerminator => true
      | _ => false
      end
  | inr _ => false
  end.

(** [suffix scanner' scanner]: [scanner'] is what is left of [scanner]
    after some of its results have been taken. *)
Definition suffix (scanner' scanner : ConfigScanner) : Prop :=
  exists consumed, scanner = (consumed ++ scanner')%list.

(** The tokens that a command holds. *)
Definition commandTokens (command : ConfigCommand) : list ConfigToken :=
  match command with
  | SetCommand variable val => [variable; val]
  | ThemeCmd c =>
      (match name c with Some t => [t] | None => [] end
       ++ match component c with Some t => [t] | None => [] end
       ++ match bgcolor c with Some t => [t] | None => [] end
       ++ match fgcolor c with Some t => [t] | None => [] end)%list
  | MapCommand view from to => [view; from; to]
  | UnmapCommand view from => [view; from]
  | QuitCommand => []
  | NewTabCommand tabName => [tabName]
  | RemoveTabCommand => []
  | AddViewCommand view args => view :: args
  | SplitViewCommand _ view args => view :: args
  end.

(** What a call returns, with the scanner it leaves freed from white
    space and comments. *)
Definition stripped (o : option (ParseResult * ConfigScanner))
  : option (ParseResult * ConfigScanner) :=
  option_map (fun p => (fst p, strip (snd p))) o.

(** The three kinds of result of a call to [Parse]: a command, an error,
    or the plain end of the input. *)
Definition wellFormedResult (r : ParseResult) : Prop :=
  match r with
  | (Some _, eof, None) => eof = false
  | (None, _, Some _) => True
  | (None, eof, None) => eof = true
  | (Some _, _, Some _) => False
  end.

(** A token that [scanner] holds, without a lexical error, and that is
    neither white space, a comment, a terminator nor the end of the input. *)
Definition argumentOf (scanner : ConfigScanner) (token : ConfigToken) : Prop :=
  In (inl token) scanner
  /\ err token = None
  /\ isWhiteSpaceOrComment token = false
  /\ isTerminatorOrEOF token = false.

(** ** The loops, unfolded

    The fuel given by the entry points is never used up: every loop obeys
    the equation of the Go loop it stands for. *)

Lemma ConfigTokenType_eqb_eq (a b : ConfigTokenType) :
  ConfigTokenType_eqb a b = true <-> a = b.
Proof. destruct a, b; simpl; split; congruence. Qed.

Lemma ConfigTokenType_eqb_refl (a : ConfigTokenType) :
  ConfigTokenType_eqb a a = true.
Proof. now destruct a. Qed.

Lemma scan_eq (scanner : ConfigScanner) :
  scan scanner =
  match Scan scanner with
  | (inr e, scanner') => (inr e, scanner')
  | (inl token, scanner') =>
      if isWhiteSpaceOrComment token then scan scanner'
      else (inl token, scanner')
  end.
Proof. destruct scanner as [|[token|e] scanner']; reflexivity. Qed.

Lemma scan_progress (scanner scanner' : ConfigScanner) (token : ConfigToken) :
  scan scanner = (inl token, scanner') ->
  tokenType token <> CtkEOF ->
  length scanner' < length scanner.
Proof.
  revert scanner'.
  induction scanner as [|[t|e] rest IH]; simpl; intros scanner' H Hne.
  - inversion H; subst. now elim Hne.
  - destruct (isWhiteSpaceOrComment t).
    + specialize (IH _ H Hne). lia.
    + inversion H; subst; lia.
  - discriminate.
Qed.

Lemma isTerminatorOrEOF_false (token : ConfigToken) :
  isTerminatorOrEOF token = false ->
  tokenType token <> CtkEOF /\ tokenType token <> CtkTerminator.
Proof.
  unfold isTerminatorOrEOF. destruct (tokenType token); split; congruence.
Qed.

Lemma discardLoop_fuel (n m : nat) (scanner : ConfigScanner) :
  length scanner < n -> length scanner < m ->
  discardLoop n scanner = discardLoop m scanner.
Proof.
  revert m scanner.
  induction n as [|n IH]; intros [|m] scanner Hn Hm; try lia.
  simpl. destruct (scan scanner) as [[token|e] scanner'] eqn:Hscan; auto.
  destruct (isTerminatorOrEOF token) eqn:Hstop; auto.
  apply isTerminatorOrEOF_false in Hstop as [Hne _].
  pose proof (scan_progress _ _ _ Hscan Hne).
  apply IH; lia.
Qed.

(** [discardTokensUntilNextCommand] is its Go loop. *)
Lemma discardTokensUntilNextCommand_eq (scanner : ConfigScanner) :
  discardTokensUntilNextCommand scanner =
  match scan scanner with
  | (inr _, scanner') => scanner'
  | (inl token, scanner') =>
      if isTerminatorOrEOF token then scanner'
      else discardTokensUntilNextCommand scanner'
  end.
Proof.
  unfold discardTokensUntilNextCommand at 1. simpl.
  destruct (scan scanner) as [[token|e] scanner'] eqn:Hscan; auto.
  destruct (isTerminatorOrEOF token) eqn:Hstop; auto.
  apply isTerminatorOrEOF_false in Hstop as [Hne _].
  pose proof (scan_progress _ _ _ Hscan Hne).
  apply discardLoop_fuel; lia.
Qed.

Lemma varArgsLoop_fuel
  (d : commandDescriptor) (commandToken : ConfigToken)
  (n m : nat) (tokens : list ConfigToken) (scanner : ConfigScanner) :
  length scanner < n -> length scanner < m ->
  varArgsLoop n d commandToken tokens scanner =
  varArgsLoop m d commandToken tokens scanner.
Proof.
  revert m tokens scanner.
  induction n as [|n IH]; intros [|m] tokens scanner Hn Hm; try lia.
  simpl. destruct (scan scanner) as [[token|e] scanner'] eqn:Hscan; auto.
  destruct (err token); auto.
  destruct (tokenType token) eqn:Hty; auto;
    (assert (Hne : tokenType token <> CtkEOF) by congruence;
     pose proof (scan_progress _ _ _ Hscan Hne);
     apply IH; lia).
Qed.

Lemma varArgsFrom_eq
  (d : commandDescriptor) (commandToken : ConfigToken)
  (tokens : list ConfigToken) (scanner : ConfigScanner) :
  varArgsFrom d commandToken tokens scanner =
  match scan scanner with
  | (inr e, scanner') => Some ((None, false, Some e), scanner')
  | (inl token, scanner') =>
      match err token with
      | Some _ =>
          Some ((None, false, Some (generateParseError token "Syntax Error")),
                scanner')
      | None =>
          if isTerminatorOrEOF token
          then construct d commandToken tokens scanner'
          else varArgsFrom d commandToken (tokens ++ [token])%list scanner'
      end
  end.
Proof.
  unfold varArgsFrom at 1. simpl.
  destruct (scan scanner) as [[token|e] scanner'] eqn:Hscan; auto.
  destruct (err token); auto.
  unfold isTerminatorOrEOF.
  destruct (tokenType token) eqn:Hty; auto;
    (assert (Hne : tokenType token <> CtkEOF) by congruence;
     pose proof (scan_progress _ _ _ Hscan Hne);
     apply varArgsLoop_fuel; lia).
Qed.

Lemma parseVarArgsCommand_eq
  (d : commandDescriptor) (commandToken : ConfigToken)
  (scanner : ConfigScanner) :
  parseVarArgsCommand d commandToken scanner =
  varArgsFrom d commandToken [] scanner.
Proof. reflexivity. Qed.

Lemma ParseLoop_fuel (n m : nat) (scanner : ConfigScanner) :
  length scanner < n -> length scanner < m ->
  ParseLoop n scanner = ParseLoop m scanner.
Proof.
  revert m scanner.
  induction n as [|n IH]; intros [|m] scanner Hn Hm; try lia.
  simpl. destruct (scan scanner) as [[token|e] scanner'] eqn:Hscan; auto.
  destruct (tokenType token) eqn:Hty; auto.
  assert (Hne : tokenType token <> CtkEOF) by congruence.
  pose proof (scan_progress _ _ _ Hscan Hne).
  apply IH; lia.
Qed.

(** [Parse] is its Go loop. *)
Lemma Parse_eq (scanner : ConfigScanner) :
  Parse scanner =
  match scan scanner with
  | (inr e, scanner') => Some ((None, false, Some e), scanner')
  | (inl token, scanner') => dispatch token scanner'
  end.
Proof.
  unfold Parse at 1. simpl.
  destruct (scan scanner) as [[token|e] scanner'] eqn:Hscan; auto.
  unfold dispatch.
  destruct (tokenType token) eqn:Hty; auto.
  assert (Hne : tokenType token <> CtkEOF) by congruence.
  pose proof (scan_progress _ _ _ Hscan Hne).
  apply ParseLoop_fuel; lia.
Qed.

(** ** Reading several tokens *)

Lemma registry_types (key : string) (d : commandDescriptor) :
  lookup key commandDescriptors = Some d ->
  Forall (fun t => t = CtkWord \/ t = CtkOption) (tokenTypes d).
Proof.
  unfold commandDescriptors. simpl.
  repeat match goal with
         | |- context [String.eqb ?a ?b] => destruct (String.eqb a b)
         end;
    intros H; inversion H; subst; simpl;
    repeat (constructor; [now (left + right)|]); constructor.
Qed.

Lemma matchTokenTypes_app
  (types1 types2 : list ConfigTokenType) (tokens acc : list ConfigToken)
  (scanner scanner' : ConfigScanner) :
  Forall (fun t => t = CtkWord \/ t = CtkOption) types1 ->
  Forall2 matchesType types1 tokens ->
  scans scanner tokens scanner' ->
  matchTokenTypes (types1 ++ types2)%list acc scanner =
  matchTokenTypes types2 (acc ++ tokens)%list scanner'.
Proof.
  intros Hty Hmatch. revert acc scanner.
  induction Hmatch as [|expected token types1 tokens [Herr Htype] _ IH];
    intros acc scanner Hscans;
    inversion Hscans as [|? ? ? ? ? Hscan Hrest]; subst.
  - simpl. now rewrite app_nil_r.
  - inversion Hty as [|? ? Hexp Hty']; subst.
    simpl. rewrite Hscan, Herr.
    replace (ConfigTokenType_eqb (tokenType token) CtkEOF) with false
      by (destruct Hexp as [-> | ->]; reflexivity).
    rewrite ConfigTokenType_eqb_refl. simpl.
    rewrite (IH Hty' _ _ Hrest), <- app_assoc. reflexivity.
Qed.

Lemma varArgsFrom_app
  (d : commandDescriptor) (commandToken : ConfigToken)
  (tokens acc : list ConfigToken) (scanner scanner' : ConfigScanner) :
  Forall argToken tokens ->
  scans scanner tokens scanner' ->
  varArgsFrom d commandToken acc scanner =
  varArgsFrom d commandToken (acc ++ tokens)%list scanner'.
Proof.
  intros Hargs Hscans. revert acc.
  induction Hscans as [|scanner token scanner1 tokens scanner' Hscan _ IH];
    intros acc.
  - now rewrite app_nil_r.
  - inversion Hargs as [|? ? [Herr Hstop] Hargs']; subst.
    rewrite varArgsFrom_eq, Hscan, Herr, Hstop, (IH Hargs'), <- app_assoc.
    reflexivity.
Qed.

Lemma Parse_terminators
  (scanner scanner' : ConfigScanner) (terminators : list ConfigToken) :
  Forall isTerminator terminators ->
  scans scanner terminators scanner' ->
  Parse scanner = Parse scanner'.
Proof.
  intros Hterm Hscans.
  induction Hscans as [|scanner token scanner1 tokens scanner' Hscan _ IH];
    auto.
  inversion Hterm as [|? ? Ht Hterm']; subst.
  rewrite Parse_eq, Hscan. unfold dispatch. rewrite Ht. auto.
Qed.

(** A scanner failure while a command reads its arguments comes back from
    [parseCommand] as it is. *)
Lemma parseCommand_scanner_error
  (commandToken : ConfigToken) (d : commandDescriptor)
  (args : list ConfigToken) (scanner scanner1 scanner2 : ConfigScanner)
  (e : error) :
  lookup (value commandToken) commandDescriptors = Some d ->
  readsOn d args ->
  scans scanner args scanner1 ->
  scan scanner1 = (inr e, scanner2) ->
  parseCommand commandToken scanner = Some ((None, false, Some e), scanner2).
Proof.
  intros Hd Hreads Hscans Hfail.
  unfold parseCommand. rewrite Hd.
  unfold readsOn in Hreads. destruct (varArgs d).
  - rewrite parseVarArgsCommand_eq,
      (varArgsFrom_app _ _ _ _ _ _ Hreads Hscans), varArgsFrom_eq, Hfail.
    reflexivity.
  - destruct Hreads as (types1 & expected & types2 & Htypes & Hmatch).
    pose proof (registry_types _ _ Hd) as Hreg.
    rewrite Htypes in Hreg |- *.
    apply Forall_app in Hreg as [Hreg1 _].
    rewrite (matchTokenTypes_app _ _ _ _ _ _ Hreg1 Hmatch Hscans).
    simpl. rewrite Hfail. reflexivity.
Qed.

(** ** Scanner failures *)

(** C1, amended.  When the scanner itself fails, [Parse] returns the
    scanner's error unchanged, with no command and [eof = false].  If the
    failure happens while the leading token is read (possibly after some
    terminators), [Parse] returns at once and the scanner is left right after
    the failed call.  If it happens while the arguments of a command are
    read, [Parse] runs its recovery step before it returns: the scanner is
    left where [discardTokensUntilNextCommand] leaves it. *)
Theorem Parse_scanner_failure
  (scanner scanner0 : ConfigScanner) (terminators : list ConfigToken) :
  Forall isTerminator terminators ->
  scans scanner terminators scanner0 ->
  (forall (e : error) (scanner1 : ConfigScanner),
      scan scanner0 = (inr e, scanner1) ->
      Parse scanner = Some ((None, false, Some e), scanner1))
  /\
  (forall (commandToken : ConfigToken) (d : commandDescriptor)
          (args : list ConfigToken) (e : error)
          (scanner1 scanner2 scanner3 : ConfigScanner),
      scan scanner0 = (inl commandToken, scanner1) ->
      tokenType commandToken = CtkWord ->
      lookup (value commandToken) commandDescriptors = Some d ->
      readsOn d args ->
      scans scanner1 args scanner2 ->
      scan scanner2 = (inr e, scanner3) ->
      Parse scanner =
      Some ((None, false, Some e), discardTokensUntilNextCommand scanner3)).
Proof.
  intros Hterm Hscans.
  rewrite (Parse_terminators _ _ _ Hterm Hscans).
  split.
  - intros e scanner1 Hfail. rewrite Parse_eq, Hfail. reflexivity.
  - intros commandToken d args e scanner1 scanner2 scanner3
      Hcmd Hword Hd Hreads Hargs Hfail.
    rewrite Parse_eq, Hcmd. unfold dispatch. rewrite Hword.
    rewrite (parseCommand_scanner_error _ _ _ _ _ _ _ Hd Hreads Hargs Hfail).
    reflexivity.
Qed.

(** ** The theme constructor *)

Lemma isThemeOption_lookup (text : string) :
  isThemeOption text = true <->
  exists optionSetter, lookup text optionSetters = Some optionSetter.
Proof.
  unfold isThemeOption, optionSetters. simpl.
  repeat match goal with
         | |- context [String.eqb ?a ?b] => destruct (String.eqb a b)
         end; simpl; split; intros H;
    try reflexivity; try discriminate; eauto;
    destruct H as [? H]; discriminate.
Qed.

Lemma isThemeOption_false (text : string) :
  isThemeOption text = false -> lookup text optionSetters = None.
Proof.
  intros H. destruct (lookup text optionSetters) as [f|] eqn:E; auto.
  assert (isThemeOption text = true) by (apply isThemeOption_lookup; eauto).
  congruence.
Qed.

Lemma themeCommandLoop_assign
  (pairs : list (ConfigToken * ConfigToken)) (c : ThemeCommand) :
  Forall (fun pair => isThemeOption (optionText pair) = true) pairs ->
  themeCommandLoop (flattenPairs pairs) c
  = Some (Some (ThemeCmd (fold_left assign pairs c)), None).
Proof.
  intros Hall. revert c.
  induction Hall as [|[optionToken valueToken] pairs Hopt _ IH]; intros c.
  - reflexivity.
  - apply isThemeOption_lookup in Hopt as [optionSetter Hopt].
    unfold optionText in Hopt. cbn [fst] in Hopt.
    cbn [flattenPairs themeCommandLoop fold_left].
    rewrite Hopt, IH.
    replace (assign c (optionToken, valueToken)) with (optionSetter valueToken c);
      [reflexivity|].
    unfold assign, optionText. cbn [fst snd]. now rewrite Hopt.
Qed.

Lemma themeCommandLoop_invalid
  (before after : list (ConfigToken * ConfigToken))
  (optionToken valueToken : ConfigToken) (c : ThemeCommand) :
  Forall (fun pair => isThemeOption (optionText pair) = true) before ->
  isThemeOption (value optionToken) = false ->
  themeCommandLoop
    (flattenPairs (before ++ (optionToken, valueToken) :: after)%list) c
  = Some (None,
          Some (generateParseError optionToken
                  ("Invalid option for theme command: "
                   ++ quoted (value optionToken)))).
Proof.
  intros Hbefore Hbad. revert c.
  induction Hbefore as [|[o v] before Hopt _ IH]; intros c;
    cbn [app flattenPairs themeCommandLoop].
  - now rewrite (isThemeOption_false _ Hbad).
  - apply isThemeOption_lookup in Hopt as [optionSetter Hopt].
    unfold optionText in Hopt. cbn [fst] in Hopt. now rewrite Hopt, IH.
Qed.

Lemma themeField_assign_same
  (c : ThemeCommand) (optionToken valueToken : ConfigToken) :
  isThemeOption (value optionToken) = true ->
  themeField (value optionToken) (assign c (optionToken, valueToken))
  = Some valueToken.
Proof.
  unfold isThemeOption, themeField, assign, optionText, optionSetters. simpl.
  repeat match goal with
         | |- context [String.eqb ?a ?b] => destruct (String.eqb a b)
         end; simpl; congruence.
Qed.

Lemma themeField_assign_other
  (text : string) (c : ThemeCommand) (pair : ConfigToken * ConfigToken) :
  optionText pair <> text ->
  themeField text (assign c pair) = themeField text c.
Proof.
  intros Hne. unfold themeField, assign, optionSetters. simpl.
  destruct (String.eqb_spec (optionText pair) "--name") as [E|_].
  { destruct (String.eqb_spec text "--name"); [congruence | reflexivity]. }
  destruct (String.eqb_spec (optionText pair) "--component") as [E|_].
  { destruct (String.eqb_spec text "--name"); [reflexivity|].
    destruct (String.eqb_spec text "--component"); [congruence | reflexivity]. }
  destruct (String.eqb_spec (optionText pair) "--bgcolor") as [E|_].
  { destruct (String.eqb_spec text "--name"); [reflexivity|].
    destruct (String.eqb_spec text "--component"); [reflexivity|].
    destruct (String.eqb_spec text "--bgcolor"); [congruence | reflexivity]. }
  destruct (String.eqb_spec (optionText pair) "--fgcolor") as [E|_].
  { destruct (String.eqb_spec text "--name"); [reflexivity|].
    destruct (String.eqb_spec text "--component"); [reflexivity|].
    destruct (String.eqb_spec text "--bgcolor"); [reflexivity|].
    destruct (String.eqb_spec text "--fgcolor"); [congruence | reflexivity]. }
  reflexivity.
Qed.

Lemma themeField_fold_other
  (text : string) (pairs : list (ConfigToken * ConfigToken))
  (c : ThemeCommand) :
  Forall (fun pair => optionText pair <> text) pairs ->
  themeField text (fold_left assign pairs c) = themeField text c.
Proof.
  intros Hall. revert c.
  induction Hall as [|pair pairs Hne _ IH]; intros c; simpl; auto.
  now rewrite IH, themeField_assign_other.
Qed.

(** The value of the last pair with a given option is the one stored. *)
Lemma themeField_last_wins
  (before after : list (ConfigToken * ConfigToken))
  (optionToken valueToken : ConfigToken) (c : ThemeCommand) :
  isThemeOption (value optionToken) = true ->
  Forall (fun pair => optionText pair <> value optionToken) after ->
  themeField (value optionToken)
    (fold_left assign (before ++ (optionToken, valueToken) :: after)%list c)
  = Some valueToken.
Proof.
  intros Hopt Hafter.
  rewrite fold_left_app. simpl.
  now rewrite themeField_fold_other, themeField_assign_same.
Qed.

Lemma themeField_in
  (pairs : list (ConfigToken * ConfigToken))
  (optionToken valueToken : ConfigToken) (c : ThemeCommand) :
  NoDup (map optionText pairs) ->
  In (optionToken, valueToken) pairs ->
  isThemeOption (value optionToken) = true ->
  themeField (value optionToken) (fold_left assign pairs c) = Some valueToken.
Proof.
  intros Hnodup Hin Hopt.
  apply in_split in Hin as (before & after & ->).
  apply themeField_last_wins; auto.
  rewrite map_app in Hnodup. simpl in Hnodup.
  apply NoDup_remove_2 in Hnodup.
  apply Forall_forall. intros pair Hpair Heq.
  apply Hnodup, in_or_app. right.
  change (optionText (optionToken, valueToken)) with (value optionToken).
  rewrite <- Heq. now apply in_map.
Qed.

Lemma themeField_permutation
  (text : string) (pairs pairs' : list (ConfigToken * ConfigToken)) :
  Forall (fun pair => isThemeOption (optionText pair) = true) pairs ->
  NoDup (map optionText pairs) ->
  Permutation pairs pairs' ->
  themeField text (fold_left assign pairs emptyTheme)
  = themeField text (fold_left assign pairs' emptyTheme).
Proof.
  intros Hall Hnodup Hperm.
  assert (Hnodup' : NoDup (map optionText pairs'))
    by (eapply Permutation_NoDup; [apply Permutation_map, Hperm | auto]).
  destruct (in_dec string_dec text (map optionText pairs)) as [Hin|Hout].
  - apply in_map_iff in Hin as ([o v] & <- & Hin).
    assert (Hopt : isThemeOption (value o) = true)
      by (rewrite Forall_forall in Hall; apply (Hall _ Hin)).
    change (optionText (o, v)) with (value o).
    rewrite (themeField_in _ _ _ _ Hnodup Hin Hopt).
    rewrite (themeField_in _ _ _ _ Hnodup'
               (Permutation_in _ Hperm Hin) Hopt).
    reflexivity.
  - rewrite !themeField_fold_other; auto;
      apply Forall_forall; intros pair Hpair Heq; apply Hout;
      rewrite <- Heq; apply in_map; auto.
    eapply Permutation_in; [apply Permutation_sym, Hperm | auto].
Qed.

Lemma ThemeCommand_ext (c c' : ThemeCommand) :
  (forall text, themeField text c = themeField text c') -> c = c'.
Proof.
  intros H. destruct c as [n co b f], c' as [n' co' b' f'].
  pose proof (H "--name") as Hn. pose proof (H "--component") as Hc.
  pose proof (H "--bgcolor") as Hb. pose proof (H "--fgcolor") as Hf.
  vm_compute in Hn, Hc, Hb, Hf. congruence.
Qed.

(** C5.  For every theme command whose options are all recognised (in
    particular with the four pairs that the grammar supplies), the
    constructor returns a theme command in which every value token sits in
    the field named by the option before it; when an option occurs more than
    once, the value of its last occurrence is stored; a field whose option
    does not occur stays unset; and when no option is repeated, the pairs
    can be given in any order without changing the result. *)
Theorem themeCommandConstructor_fields
  (commandToken : ConfigToken) (pairs : list (ConfigToken * ConfigToken)) :
  Forall (fun pair => isThemeOption (optionText pair) = true) pairs ->
  exists c : ThemeCommand,
    themeCommandConstructor commandToken (flattenPairs pairs)
    = Some (Some (ThemeCmd c), None)
    /\ (forall before optionToken valueToken after,
           pairs = (before ++ (optionToken, valueToken) :: after)%list ->
           Forall (fun pair => optionText pair <> value optionToken) after ->
           themeField (value optionToken) c = Some valueToken)
    /\ (forall text,
           Forall (fun pair => optionText pair <> text) pairs ->
           themeField text c = None)
    /\ (forall pairs',
           NoDup (map optionText pairs) ->
           Permutation pairs pairs' ->
           themeCommandConstructor commandToken (flattenPairs pairs')
           = Some (Some (ThemeCmd c), None)).
Proof.
  intros Hall.
  exists (fold_left assign pairs emptyTheme).
  unfold themeCommandConstructor. fold emptyTheme.
  split; [now apply themeCommandLoop_assign|].
  split; [|split].
  - intros before optionToken valueToken after -> Hafter.
    apply themeField_last_wins; auto.
    apply Forall_app in Hall as [_ Hall].
    now inversion Hall.
  - intros text Hnone.
    rewrite themeField_fold_other by assumption.
    unfold themeField, emptyTheme. simpl.
    repeat match goal with
           | |- context [String.eqb ?a ?b] => destruct (String.eqb a b)
           end; reflexivity.
  - intros pairs' Hnodup Hperm.
    rewrite themeCommandLoop_assign
      by (eapply Permutation_Forall; eauto).
    do 4 f_equal. apply ThemeCommand_ext. intros text. symmetry.
    now apply themeField_permutation.
Qed.

(** ** Texts inside texts *)

Lemma append_assoc (a b c : string) : (a ++ b) ++ c = a ++ b ++ c.
Proof. induction a as [|x a IH]; simpl; [reflexivity | now rewrite IH]. Qed.

Lemma append_nil_r (a : string) : a ++ EmptyString = a.
Proof. induction a as [|x a IH]; simpl; [reflexivity | now rewrite IH]. Qed.

Lemma contains_refl (s : string) : contains s s.
Proof. exists EmptyString, EmptyString. simpl. now rewrite append_nil_r. Qed.

Lemma contains_append (sub s before after : string) :
  contains sub s -> contains sub (before ++ s ++ after).
Proof.
  intros (b & a & ->). exists (before ++ b), (a ++ after).
  now rewrite !append_assoc.
Qed.

Lemma contains_message
  (source : string) (token : ConfigToken) (sub message : string) :
  contains sub message ->
  contains sub (generateConfigError source token message).
Proof. intros H. unfold generateConfigError. now apply contains_append. Qed.

Lemma contains_quoted (text : string) : contains text (quoted text).
Proof. exists dquote, dquote. reflexivity. Qed.

Lemma Exists_first {A : Type} (P : A -> bool) (l : list A) :
  Exists (fun x => P x = false) l ->
  exists before x after,
    l = (before ++ x :: after)%list
    /\ Forall (fun y => P y = true) before /\ P x = false.
Proof.
  induction l as [|a l IH]; intros H.
  - inversion H.
  - destruct (P a) eqn:Ha.
    + inversion H as [? ? Hbad | ? ? Hrest]; subst; [congruence|].
      destruct (IH Hrest) as (before & x & after & -> & Hbefore & Hx).
      exists (a :: before), x, after. repeat split; auto.
    + exists [], a, l. repeat split; auto.
Qed.

(** C6.  For every theme command in which the text of some option token is
    not one of [--name], [--component], [--bgcolor], [--fgcolor], the theme
    constructor returns no command and an error that names the text of the
    first such option. *)
Theorem themeCommandConstructor_invalid_option
  (commandToken : ConfigToken) (pairs : list (ConfigToken * ConfigToken)) :
  Exists (fun pair => isThemeOption (optionText pair) = false) pairs ->
  exists (optionToken : ConfigToken) (e : error),
    In optionToken (map fst pairs)
    /\ isThemeOption (value optionToken) = false
    /\ themeCommandConstructor commandToken (flattenPairs pairs)
       = Some (None, Some e)
    /\ e = generateParseError optionToken
             ("Invalid option for theme command: "
              ++ quoted (value optionToken))
    /\ contains (value optionToken) e.
Proof.
  intros Hbad.
  apply (Exists_first (fun pair => isThemeOption (optionText pair))) in Hbad
    as (before & [optionToken valueToken] & after & -> & Hbefore & Hopt).
  unfold optionText in Hopt. simpl in Hopt.
  exists optionToken. eexists.
  split; [|split; [exact Hopt | split; [|split; [reflexivity|]]]].
  - rewrite map_app. apply in_or_app. right. now left.
  - unfold themeCommandConstructor.
    now apply themeCommandLoop_invalid.
  - apply contains_message.
    pose proof (contains_append _ _ "Invalid option for theme command: "
                  EmptyString (contains_quoted (value optionToken))) as H.
    now rewrite append_nil_r in H.
Qed.

(** ** The constructors of the variable-arity commands *)

(** Case analysis on a successful registry lookup: one goal per command
    name, with the name known. *)
Ltac registry_cases H :=
  unfold commandDescriptors in H; cbn [lookup] in H;
  repeat match type of H with
         | context [String.eqb ?a ?b] =>
             destruct (String.eqb_spec a b)
         end;
  try discriminate H;
  injection H as H; subst.

Lemma varArgs_names (key : string) (d : commandDescriptor) :
  lookup key commandDescriptors = Some d ->
  varArgs d = true ->
  (key = addviewCommand /\ constructor d = addViewCommandConstructor)
  \/ ((key = splitCommand \/ key = hsplitCommand \/ key = vsplitCommand)
      /\ constructor d = splitViewCommandConstructor).
Proof.
  intros H Hvar. registry_cases H; simpl in Hvar; try discriminate Hvar;
    simpl; intuition.
Qed.

(** C7.  For every variable-arity command ([addview], [split], [hsplit],
    [vsplit]): on an empty argument list its constructor returns no command
    and a usage error that names the command; on a non-empty list the first
    token becomes the view and the other tokens, in order, the args. *)
Theorem varArgs_constructor
  (commandToken : ConfigToken) (d : commandDescriptor) :
  lookup (value commandToken) commandDescriptors = Some d ->
  varArgs d = true ->
  (exists e,
      constructor d commandToken [] = Some (None, Some e)
      /\ e = generateParseError commandToken
               (usageMessage (value commandToken))
      /\ contains (value commandToken) e)
  /\ (forall (first : ConfigToken) (rest : list ConfigToken),
         exists command,
           constructor d commandToken (first :: rest)
           = Some (Some command, None)
           /\ (command = AddViewCommand first rest
               \/ exists orientation,
                   command = SplitViewCommand orientation first rest)).
Proof.
  intros Hd Hvar.
  assert (Hname : contains (value commandToken)
                    (generateParseError commandToken
                       (usageMessage (value commandToken)))).
  { apply contains_message. unfold usageMessage.
    exists "Invalid ". eexists. reflexivity. }
  destruct (varArgs_names _ _ Hd Hvar) as [[Hkey Hc] | [Hkey Hc]];
    rewrite Hc; split.
  - eexists. split; [reflexivity | split; [reflexivity | exact Hname]].
  - intros first rest. eexists. split; [reflexivity | now left].
  - eexists. split; [reflexivity | split; [reflexivity | exact Hname]].
  - intros first rest. unfold splitViewCommandConstructor.
    destruct Hkey as [-> | [-> | ->]]; simpl;
      eexists; (split; [reflexivity | right; eexists; reflexivity]).
Qed.

(** C8.  The orientation of a split-view command comes from the text of the
    command token alone: [split] gives [CoDynamic], [hsplit] gives
    [CoHorizontal], [vsplit] gives [CoVertical]; with any other command name
    the split-view constructor returns an error and no command. *)
Theorem splitViewCommandConstructor_orientation (commandToken : ConfigToken) :
  (forall first rest,
      value commandToken = splitCommand ->
      splitViewCommandConstructor commandToken (first :: rest)
      = Some (Some (SplitViewCommand CoDynamic first rest), None))
  /\ (forall first rest,
         value commandToken = hsplitCommand ->
         splitViewCommandConstructor commandToken (first :: rest)
         = Some (Some (SplitViewCommand CoHorizontal first rest), None))
  /\ (forall first rest,
         value commandToken = vsplitCommand ->
         splitViewCommandConstructor commandToken (first :: rest)
         = Some (Some (SplitViewCommand CoVertical first rest), None))
  /\ (forall tokens,
         value commandToken <> splitCommand ->
         value commandToken <> hsplitCommand ->
         value commandToken <> vsplitCommand ->
         exists e,
           splitViewCommandConstructor commandToken tokens
           = Some (None, Some e)).
Proof.
  unfold splitViewCommandConstructor.
  repeat split.
  - intros first rest ->. reflexivity.
  - intros first rest ->. reflexivity.
  - intros first rest ->. reflexivity.
  - intros [|first rest] H1 H2 H3.
    + eexists. reflexivity.
    + apply String.eqb_neq in H1, H2, H3. rewrite H1, H2, H3.
      eexists. reflexivity.
Qed.

(** ** Parsing one command *)

(** The leading part of a call to [Parse]: terminators are skipped and the
    command token is handed to [parseCommand]. *)
Lemma Parse_parseCommand
  (scanner scanner0 scanner1 : ConfigScanner)
  (terminators : list ConfigToken) (commandToken : ConfigToken) :
  Forall isTerminator terminators ->
  scans scanner terminators scanner0 ->
  scan scanner0 = (inl commandToken, scanner1) ->
  tokenType commandToken = CtkWord ->
  Parse scanner =
  match parseCommand commandToken scanner1 with
  | None => None
  | Some (r, scanner') => Some (finishParse r scanner')
  end.
Proof.
  intros Hterm Hscans Hcmd Hword.
  rewrite (Parse_terminators _ _ _ Hterm Hscans), Parse_eq, Hcmd.
  unfold dispatch. now rewrite Hword.
Qed.

Lemma parseCommand_fixed
  (commandToken : ConfigToken) (d : commandDescriptor)
  (args : list ConfigToken) (scanner scanner' : ConfigScanner) :
  lookup (value commandToken) commandDescriptors = Some d ->
  varArgs d = false ->
  Forall2 matchesType (tokenTypes d) args ->
  scans scanner args scanner' ->
  parseCommand commandToken scanner = construct d commandToken args scanner'.
Proof.
  intros Hd Hfixed Hmatch Hscans.
  unfold parseCommand. rewrite Hd, Hfixed.
  rewrite <- (app_nil_r (tokenTypes d)).
  rewrite (matchTokenTypes_app _ _ _ _ _ _
             (registry_types _ _ Hd) Hmatch Hscans).
  reflexivity.
Qed.

Lemma parseCommand_varArgs
  (commandToken : ConfigToken) (d : commandDescriptor)
  (args : list ConfigToken) (last : ConfigToken)
  (scanner scanner1 scanner' : ConfigScanner) :
  lookup (value commandToken) commandDescriptors = Some d ->
  varArgs d = true ->
  Forall argToken args ->
  scans scanner args scanner1 ->
  scan scanner1 = (inl last, scanner') ->
  endToken last ->
  parseCommand commandToken scanner = construct d commandToken args scanner'.
Proof.
  intros Hd Hvar Hargs Hscans Hlast [Herr Hstop].
  unfold parseCommand. rewrite Hd, Hvar, parseVarArgsCommand_eq.
  rewrite (varArgsFrom_app _ _ _ _ _ _ Hargs Hscans), varArgsFrom_eq.
  now rewrite Hlast, Herr, Hstop.
Qed.

Lemma parseCommand_EOF
  (commandToken : ConfigToken) (d : commandDescriptor)
  (args : list ConfigToken) (last : ConfigToken)
  (scanner scanner1 scanner' : ConfigScanner) :
  lookup (value commandToken) commandDescriptors = Some d ->
  varArgs d = false ->
  readsOn d args ->
  scans scanner args scanner1 ->
  scan scanner1 = (inl last, scanner') ->
  err last = None ->
  tokenType last = CtkEOF ->
  parseCommand commandToken scanner
  = Some ((None, true, Some (generateParseError last "Unexpected EOF")),
          scanner').
Proof.
  intros Hd Hfixed Hreads Hscans Hlast Herr Heof.
  unfold parseCommand. rewrite Hd, Hfixed.
  unfold readsOn in Hreads. rewrite Hfixed in Hreads.
  destruct Hreads as (types1 & expected & types2 & Htypes & Hmatch).
  pose proof (registry_types _ _ Hd) as Hreg.
  rewrite Htypes in Hreg |- *.
  apply Forall_app in Hreg as [Hreg1 _].
  rewrite (matchTokenTypes_app _ _ _ _ _ _ Hreg1 Hmatch Hscans).
  simpl. now rewrite Hlast, Herr, Heof.
Qed.

(** C4.  For every fixed-arity command whose argument tokens end with the
    end of the input before all the expected types are matched, [Parse]
    returns no command, an error whose text contains [Unexpected EOF], and
    [eof = true], on that same call. *)
Theorem Parse_unexpected_EOF
  (scanner scanner0 scanner1 scanner2 scanner3 : ConfigScanner)
  (terminators args : list ConfigToken)
  (commandToken last : ConfigToken) (d : commandDescriptor) :
  Forall isTerminator terminators ->
  scans scanner terminators scanner0 ->
  scan scanner0 = (inl commandToken, scanner1) ->
  tokenType commandToken = CtkWord ->
  lookup (value commandToken) commandDescriptors = Some d ->
  varArgs d = false ->
  readsOn d args ->
  scans scanner1 args scanner2 ->
  scan scanner2 = (inl last, scanner3) ->
  err last = None ->
  tokenType last = CtkEOF ->
  exists (e : error) (scanner' : ConfigScanner),
    Parse scanner = Some ((None, true, Some e), scanner')
    /\ e = generateParseError last "Unexpected EOF"
    /\ contains "Unexpected EOF" e.
Proof.
  intros Hterm Hscans Hcmd Hword Hd Hfixed Hreads Hargs Hlast Herr Heof.
  rewrite (Parse_parseCommand _ _ _ _ _ Hterm Hscans Hcmd Hword).
  rewrite (parseCommand_EOF _ _ _ _ _ _ _
             Hd Hfixed Hreads Hargs Hlast Herr Heof).
  simpl. do 2 eexists. split; [reflexivity | split; [reflexivity|]].
  apply contains_message, contains_refl.
Qed.


(** ** Well-formed commands *)

Lemma ThemeCommand_eta (c : ThemeCommand) :
  c = {| name := themeField "--name" c;
         component := themeField "--component" c;
         bgcolor := themeField "--bgcolor" c;
         fgcolor := themeField "--fgcolor" c |}.
Proof. now destruct c. Qed.

Lemma themeField_fold_valueOfOption
  (text : string) (pairs : list (ConfigToken * ConfigToken))
  (c : ThemeCommand) :
  Forall (fun pair => isThemeOption (optionText pair) = true) pairs ->
  themeField text (fold_left assign pairs c)
  = match valueOfOption text (flattenPairs pairs) with
    | Some later => Some later
    | None => themeField text c
    end.
Proof.
  intros Hall. revert c.
  induction Hall as [|[o v] pairs Hopt _ IH]; intros c.
  - reflexivity.
  - cbn [fold_left flattenPairs valueOfOption]. rewrite IH.
    destruct (valueOfOption text (flattenPairs pairs)); [reflexivity|].
    destruct (String.eqb_spec (value o) text) as [<- | Hne].
    + now apply themeField_assign_same.
    + now apply themeField_assign_other.
Qed.

Lemma themeCommandConstructor_valueOfOption
  (commandToken : ConfigToken) (pairs : list (ConfigToken * ConfigToken)) :
  Forall (fun pair => isThemeOption (optionText pair) = true) pairs ->
  themeCommandConstructor commandToken (flattenPairs pairs)
  = Some (Some (ThemeCmd
                  {| name := valueOfOption "--name" (flattenPairs pairs);
                     component :=
                       valueOfOption "--component" (flattenPairs pairs);
                     bgcolor := valueOfOption "--bgcolor" (flattenPairs pairs);
                     fgcolor := valueOfOption "--fgcolor" (flattenPairs pairs)
                  |}),
          None).
Proof.
  intros Hall. unfold themeCommandConstructor. fold emptyTheme.
  rewrite (themeCommandLoop_assign _ _ Hall).
  rewrite (ThemeCommand_eta (fold_left assign pairs emptyTheme)).
  rewrite !(themeField_fold_valueOfOption _ _ _ Hall).
  destruct (valueOfOption "--name" (flattenPairs pairs)),
    (valueOfOption "--component" (flattenPairs pairs)),
    (valueOfOption "--bgcolor" (flattenPairs pairs)),
    (valueOfOption "--fgcolor" (flattenPairs pairs)); reflexivity.
Qed.

(** On arguments that match the grammar every registered constructor
    builds the command that the arguments denote. *)
Lemma constructor_expected
  (commandToken : ConfigToken) (d : commandDescriptor)
  (args : list ConfigToken) :
  lookup (value commandToken) commandDescriptors = Some d ->
  satisfiesGrammar d args ->
  (value commandToken = themeCommand -> optionsRecognised args = true) ->
  exists command,
    expectedCommand (value commandToken) args = Some command
    /\ constructor d commandToken args = Some (Some command, None).
Proof.
  intros Hd Hgrammar Htheme.
  unfold satisfiesGrammar in Hgrammar.
  registry_cases Hd; cbn [varArgs tokenTypes constructor] in Hgrammar |- *;
    match goal with
    | E : value commandToken = _ |- _ =>
        try specialize (Htheme E); rewrite E; rename E into Hname
    end.
  - (* set *)
    inversion Hgrammar as [|? t0 ? l0 _ H0]; subst.
    inversion H0 as [|? t1 ? l1 _ H1]; subst. inversion H1; subst.
    eexists; split; reflexivity.
  - (* theme *)
    repeat match goal with
           | H : Forall2 matchesType (_ :: _) _ |- _ =>
               inversion H; subst; clear H
           | H : Forall2 matchesType [] _ |- _ =>
               inversion H; subst; clear H
           end.
    match goal with
    | |- context [themeCommandConstructor _ [?o1; ?v1; ?o2; ?v2;
                                             ?o3; ?v3; ?o4; ?v4]] =>
        change [o1; v1; o2; v2; o3; v3; o4; v4]
          with (flattenPairs [(o1, v1); (o2, v2); (o3, v3); (o4, v4)])
          in Htheme |- *
    end.
    rewrite themeCommandConstructor_valueOfOption.
    + eexists; split; reflexivity.
    + cbn [flattenPairs optionsRecognised] in Htheme.
      rewrite !andb_true_iff in Htheme.
      repeat constructor; unfold optionText; cbn [fst]; tauto.
  - (* map *)
    inversion Hgrammar as [|? t0 ? l0 _ H0]; subst.
    inversion H0 as [|? t1 ? l1 _ H1]; subst.
    inversion H1 as [|? t2 ? l2 _ H2]; subst. inversion H2; subst.
    eexists; split; reflexivity.
  - (* unmap *)
    inversion Hgrammar as [|? t0 ? l0 _ H0]; subst.
    inversion H0 as [|? t1 ? l1 _ H1]; subst. inversion H1; subst.
    eexists; split; reflexivity.
  - (* q *)
    inversion Hgrammar; subst. eexists; split; reflexivity.
  - (* addtab *)
    inversion Hgrammar as [|? t0 ? l0 _ H0]; subst. inversion H0; subst.
    eexists; split; reflexivity.
  - (* rmtab *)
    inversion Hgrammar; subst. eexists; split; reflexivity.
  - (* addview *)
    destruct args as [|first rest]; [now destruct Hgrammar|].
    eexists; split; reflexivity.
  - (* vsplit *)
    destruct args as [|first rest]; [now destruct Hgrammar|].
    unfold splitViewCommandConstructor. rewrite Hname.
    eexists; split; reflexivity.
  - (* hsplit *)
    destruct args as [|first rest]; [now destruct Hgrammar|].
    unfold splitViewCommandConstructor. rewrite Hname.
    eexists; split; reflexivity.
  - (* split *)
    destruct args as [|first rest]; [now destruct Hgrammar|].
    unfold splitViewCommandConstructor. rewrite Hname.
    eexists; split; reflexivity.
Qed.

(** C2, amended.  For every command name of the registry and every input
    whose significant tokens are, after any number of terminators, that
    command name followed by tokens without lexical errors that match its
    grammar (fixed arity: the expected types in order and number; variable
    arity: at least one token, ended by a terminator or the end of the
    input), and, for [theme], whose four options are all recognised,
    [Parse] returns the command of the matching variant, no error and
    [eof = false].  The fields of the command are the argument tokens in
    the order given, except for [theme], where each value token is in the
    field named by the option before it. *)
Theorem Parse_command
  (scanner scanner0 scanner1 scanner2 : ConfigScanner)
  (terminators args : list ConfigToken)
  (commandToken : ConfigToken) (d : commandDescriptor) :
  Forall isTerminator terminators ->
  scans scanner terminators scanner0 ->
  scan scanner0 = (inl commandToken, scanner1) ->
  tokenType commandToken = CtkWord ->
  lookup (value commandToken) commandDescriptors = Some d ->
  scans scanner1 args scanner2 ->
  satisfiesGrammar d args ->
  (varArgs d = true ->
   exists last scanner3,
     scan scanner2 = (inl last, scanner3) /\ endToken last) ->
  (value commandToken = themeCommand -> optionsRecognised args = true) ->
  exists (command : ConfigCommand) (scanner' : ConfigScanner),
    expectedCommand (value commandToken) args = Some command
    /\ Parse scanner = Some ((Some command, false, None), scanner').
Proof.
  intros Hterm Hscans Hcmd Hword Hd Hargs Hgrammar Hend Htheme.
  destruct (constructor_expected _ _ _ Hd Hgrammar Htheme)
    as (command & Hexpected & Hconstructor).
  exists command.
  rewrite (Parse_parseCommand _ _ _ _ _ Hterm Hscans Hcmd Hword).
  unfold satisfiesGrammar in Hgrammar.
  destruct (varArgs d) eqn:Hvar.
  - destruct (Hend eq_refl) as (last & scanner3 & Hlast & Hstop).
    destruct Hgrammar as [_ Hall].
    rewrite (parseCommand_varArgs _ _ _ _ _ _ _
               Hd Hvar Hall Hargs Hlast Hstop).
    unfold construct. rewrite Hconstructor. simpl. eauto.
  - rewrite (parseCommand_fixed _ _ _ _ _ Hd Hvar Hgrammar Hargs).
    unfold construct. rewrite Hconstructor. simpl. eauto.
Qed.

(** ** Where errors come from *)


Lemma scan_incl (scanner scanner' : ConfigScanner) (r : ScanResult) :
  scan scanner = (r, scanner') -> incl scanner' scanner.
Proof.
  revert r scanner'.
  induction scanner as [|[t|e'] rest IH]; simpl; intros r scanner' H.
  - inversion H; subst. apply incl_refl.
  - destruct (isWhiteSpaceOrComment t).
    + apply incl_tl. eauto.
    + inversion H; subst. apply incl_tl, incl_refl.
  - inversion H; subst. apply incl_tl, incl_refl.
Qed.





Lemma list_pair_ind {A : Type} (P : list A -> Prop) :
  P [] -> (forall a, P [a]) ->
  (forall a b l, P l -> P (a :: b :: l)) ->
  forall l, P l.
Proof.
  intros Hnil Hone Hpair.
  fix IH 1. intros [|a [|b l]].
  - exact Hnil.
  - exact (Hone a).
  - exact (Hpair a b l (IH l)).
Qed.





Lemma finishParse_result (r : ParseResult) (scanner : ConfigScanner) :
  fst (finishParse r scanner) = r.
Proof. destruct r as [[command eof] [e|]]; reflexivity. Qed.


(** ** [Parse] always returns *)

Lemma matchTokenTypes_length
  (types : list ConfigTokenType) (acc tokens : list ConfigToken)
  (scanner scanner' : ConfigScanner) :
  matchTokenTypes types acc scanner = (inr tokens, scanner') ->
  length tokens = length acc + length types.
Proof.
  revert acc scanner.
  induction types as [|expected types IH]; intros acc scanner H; simpl in H.
  - inversion H; subst. simpl. lia.
  - destruct (scan scanner) as [[token|e] scanner1]; [|discriminate H].
    destruct (err token); [discriminate H|].
    destruct (ConfigTokenType_eqb (tokenType token) CtkEOF);
      [discriminate H|].
    destruct (negb (ConfigTokenType_eqb (tokenType token) expected));
      [discriminate H|].
    apply IH in H. rewrite length_app in H. simpl in *. lia.
Qed.

Lemma constructor_total
  (key : string) (d : commandDescriptor) (commandToken : ConfigToken)
  (tokens : list ConfigToken) :
  lookup key commandDescriptors = Some d ->
  (varArgs d = false -> length tokens = length (tokenTypes d)) ->
  exists r, constructor d commandToken tokens = Some r.
Proof.
  intros Hd Hlen.
  registry_cases Hd; cbn [constructor varArgs tokenTypes] in *;
    try specialize (Hlen eq_refl).
  - destruct tokens as [|? [|? [|? ?]]]; try discriminate Hlen.
    eexists; reflexivity.
  - unfold themeCommandConstructor.
    generalize {| name := None; component := None;
                  bgcolor := None; fgcolor := None |}.
    clear Hlen.
    induction tokens as [| a | o v tokens IH] using list_pair_ind;
      intros c; try (eexists; reflexivity).
    cbn [themeCommandLoop].
    destruct (lookup (value o) optionSetters); [apply IH|].
    eexists; reflexivity.
  - destruct tokens as [|? [|? [|? [|? ?]]]]; try discriminate Hlen.
    eexists; reflexivity.
  - destruct tokens as [|? [|? [|? ?]]]; try discriminate Hlen.
    eexists; reflexivity.
  - eexists; reflexivity.
  - destruct tokens as [|? [|? ?]]; try discriminate Hlen.
    eexists; reflexivity.
  - eexists; reflexivity.
  - destruct tokens; eexists; reflexivity.
  - unfold splitViewCommandConstructor.
    destruct tokens; [eexists; reflexivity|].
    repeat match goal with
           | |- context [String.eqb ?a ?b] => destruct (String.eqb a b)
           end; eexists; reflexivity.
  - unfold splitViewCommandConstructor.
    destruct tokens; [eexists; reflexivity|].
    repeat match goal with
           | |- context [String.eqb ?a ?b] => destruct (String.eqb a b)
           end; eexists; reflexivity.
  - unfold splitViewCommandConstructor.
    destruct tokens; [eexists; reflexivity|].
    repeat match goal with
           | |- context [String.eqb ?a ?b] => destruct (String.eqb a b)
           end; eexists; reflexivity.
Qed.

Lemma construct_total
  (key : string) (d : commandDescriptor) (commandToken : ConfigToken)
  (tokens : list ConfigToken) (scanner : ConfigScanner) :
  lookup key commandDescriptors = Some d ->
  (varArgs d = false -> length tokens = length (tokenTypes d)) ->
  exists r, construct d commandToken tokens scanner = Some r.
Proof.
  intros Hd Hlen. unfold construct.
  destruct (constructor_total _ _ commandToken _ Hd Hlen) as [[c e] ->].
  eexists; reflexivity.
Qed.

Lemma varArgsFrom_total
  (key : string) (d : commandDescriptor) (commandToken : ConfigToken)
  (n : nat) :
  lookup key commandDescriptors = Some d ->
  varArgs d = true ->
  forall (tokens : list ConfigToken) (scanner : ConfigScanner),
    length scanner < n ->
    exists r, varArgsFrom d commandToken tokens scanner = Some r.
Proof.
  intros Hd Hvar.
  induction n as [|n IH]; intros tokens scanner Hn; [lia|].
  rewrite varArgsFrom_eq.
  destruct (scan scanner) as [[token|e] scanner1] eqn:Hscan;
    [|eexists; reflexivity].
  destruct (err token); [eexists; reflexivity|].
  destruct (isTerminatorOrEOF token) eqn:Hstop.
  - eapply construct_total; eauto. intros H. congruence.
  - apply isTerminatorOrEOF_false in Hstop as [Hne _].
    pose proof (scan_progress _ _ _ Hscan Hne).
    apply IH. lia.
Qed.

Lemma parseCommand_total
  (commandToken : ConfigToken) (scanner : ConfigScanner) :
  exists r, parseCommand commandToken scanner = Some r.
Proof.
  unfold parseCommand.
  destruct (lookup (value commandToken) commandDescriptors) as [d|] eqn:Hd;
    [|eexists; reflexivity].
  destruct (varArgs d) eqn:Hvar.
  - rewrite parseVarArgsCommand_eq.
    eapply (varArgsFrom_total _ _ _ (S (length scanner))); eauto.
  - destruct (matchTokenTypes (tokenTypes d) [] scanner)
      as [[r|tokens] scanner1] eqn:Hmatch; [eexists; reflexivity|].
    eapply construct_total; eauto. intros _.
    now apply matchTokenTypes_length in Hmatch.
Qed.

(** [Parse] returns on every input: no constructor panics on the tokens
    the parser gives it, and no loop runs out of fuel. *)
Lemma Parse_total (scanner : ConfigScanner) :
  exists r scanner', Parse scanner = Some (r, scanner').
Proof.
  remember (S (length scanner)) as n eqn:Hn.
  assert (Hlt : length scanner < n) by lia. clear Hn.
  revert scanner Hlt.
  induction n as [|n IH]; intros scanner Hlt; [lia|].
  rewrite Parse_eq.
  destruct (scan scanner) as [[token|e] scanner1] eqn:Hscan;
    [|do 2 eexists; reflexivity].
  unfold dispatch.
  destruct (tokenType token) eqn:Hty;
    try (match goal with
         | |- exists r s, Some (finishParse ?a ?b) = _ =>
             destruct (finishParse a b) as [r0 s0];
             do 2 eexists; reflexivity
         end).
  - destruct (parseCommand_total token scanner1) as [[r scanner2] ->].
    destruct (finishParse r scanner2) as [r0 s0]. do 2 eexists; reflexivity.
  - assert (Hne : tokenType token <> CtkEOF) by congruence.
    pose proof (scan_progress _ _ _ Hscan Hne).
    apply IH. lia.
Qed.


(** ** Recovery *)

(** [discardTokensUntilNextCommand] stops right after the first terminator,
    end-of-input token or scanner error. *)
Lemma discardTokensUntilNextCommand_stops
  (scanner scanner1 scanner2 : ConfigScanner)
  (tokens : list ConfigToken) (r : ScanResult) :
  scans scanner tokens scanner1 ->
  Forall (fun token => isTerminatorOrEOF token = false) tokens ->
  scan scanner1 = (r, scanner2) ->
  match r with
  | inl token => isTerminatorOrEOF token = true
  | inr _ => True
  end ->
  discardTokensUntilNextCommand scanner = scanner2.
Proof.
  intros Hscans Hall Hlast Hr.
  induction Hscans as [|scanner token scanner1' tokens scanner1 Hscan _ IH].
  - rewrite discardTokensUntilNextCommand_eq, Hlast.
    destruct r as [token|e]; [now rewrite Hr | reflexivity].
  - inversion Hall as [|? ? Hgo Hall']; subst.
    rewrite discardTokensUntilNextCommand_eq, Hscan, Hgo. auto.
Qed.

(** * Further properties of the parser *)

(** ** Input without commands *)

Lemma Parse_skip (token : ConfigToken) (scanner : ConfigScanner) :
  isWhiteSpaceOrComment token = true ->
  Parse (inl token :: scanner) = Parse scanner.
Proof.
  intros Hskip. rewrite (Parse_eq (inl token :: scanner)), (Parse_eq scanner).
  simpl. now rewrite Hskip.
Qed.

(** On an input that holds nothing but white space, comments and
    terminators, the empty input included, [Parse] reads everything and
    reports the end of the input, without a command and without an
    error. *)
Theorem Parse_blank_input (scanner : ConfigScanner) :
  forallb blank scanner = true ->
  Parse scanner = Some ((None, true, None), []).
Proof.
  induction scanner as [|[token|e] rest IH]; simpl; intros Hblank.
  - reflexivity.
  - apply andb_true_iff in Hblank as [Htoken Hrest].
    destruct (isWhiteSpaceOrComment token) eqn:Hskip.
    + rewrite Parse_skip by assumption. auto.
    + rewrite Parse_eq. simpl. rewrite Hskip. unfold dispatch.
      unfold isWhiteSpaceOrComment in Hskip.
      destruct (tokenType token); try discriminate; auto.
  - discriminate.
Qed.

(** ** Lines that are not commands *)

Lemma lookup_None {A : Type} (key : string) (m : list (string * A)) :
  ~ In key (map fst m) -> lookup key m = None.
Proof.
  induction m as [|[k a] m IH]; simpl; intros Hout; [reflexivity|].
  destruct (String.eqb_spec key k) as [-> | _].
  - elim Hout. now left.
  - apply IH. intros Hin. apply Hout. now right.
Qed.

(** What [Parse] returns for a failure that the parser reports itself:
    the error, and the scanner as the recovery leaves it. *)
Lemma finishParse_error
  (command : option ConfigCommand) (eof : bool) (e : error)
  (scanner : ConfigScanner) :
  finishParse (command, eof, Some e) scanner
  = ((command, eof, Some e), discardTokensUntilNextCommand scanner).
Proof. reflexivity. Qed.

(** A leading word that is not the name of a registered command: [Parse]
    returns no command and the error [Invalid command], with the word
    between quotes, about that word; the recovery then discards the rest of
    the line, and the scanner is left right after the first terminator,
    end-of-input token or scanner failure that follows. *)
Theorem Parse_unknown_command
  (scanner scanner0 scanner1 scanner2 scanner3 : ConfigScanner)
  (terminators rest : list ConfigToken) (commandToken : ConfigToken)
  (r : ScanResult) :
  Forall isTerminator terminators ->
  scans scanner terminators scanner0 ->
  scan scanner0 = (inl commandToken, scanner1) ->
  tokenType commandToken = CtkWord ->
  ~ In (value commandToken) commandNames ->
  scans scanner1 rest scanner2 ->
  Forall (fun token => isTerminatorOrEOF token = false) rest ->
  scan scanner2 = (r, scanner3) ->
  match r with
  | inl token => isTerminatorOrEOF token = true
  | inr _ => True
  end ->
  Parse scanner
  = Some ((None, false,
           Some (generateParseError commandToken
                   ("Invalid command " ++ quoted (value commandToken)))),
          scanner3).
Proof.
  intros Hterm Hscans Hcmd Hword Hunknown Hrest Hgo Hstop Hr.
  rewrite (Parse_parseCommand _ _ _ _ _ Hterm Hscans Hcmd Hword).
  unfold parseCommand. rewrite (lookup_None _ _ Hunknown).
  rewrite finishParse_error.
  now rewrite (discardTokensUntilNextCommand_stops _ _ _ _ _ Hrest Hgo Hstop Hr).
Qed.

(** A line cannot start with an option or with an invalid token: [Parse]
    returns no command, [eof = false] and the error [Unexpected Option]
    (with the text of the option between quotes) or [Syntax Error], about
    that token, and runs the recovery. *)
Theorem Parse_leading_option_or_invalid
  (scanner scanner0 scanner1 : ConfigScanner)
  (terminators : list ConfigToken) (token : ConfigToken) :
  Forall isTerminator terminators ->
  scans scanner terminators scanner0 ->
  scan scanner0 = (inl token, scanner1) ->
  tokenType token = CtkOption \/ tokenType token = CtkInvalid ->
  exists message,
    Parse scanner
    = Some ((None, false, Some (generateParseError token message)),
            discardTokensUntilNextCommand scanner1)
    /\ (tokenType token = CtkOption ->
        message = "Unexpected Option " ++ quoted (value token))
    /\ (tokenType token = CtkInvalid -> message = "Syntax Error").
Proof.
  intros Hterm Hscans Htoken Hty.
  rewrite (Parse_terminators _ _ _ Hterm Hscans), Parse_eq, Htoken.
  unfold dispatch.
  destruct Hty as [Hty | Hty]; rewrite Hty, finishParse_error;
    eexists; (split; [reflexivity | split; intros H; congruence]).
Qed.

(** ** Arguments that do not fit *)

(** A fixed-arity command whose next argument token has another type than
    the expected one (and is not the end of the input): [Parse] returns no
    command, [eof = false] and an error about that token which gives the
    name of the expected type, the name of the type found and the text of
    the token, and runs the recovery. *)
Theorem Parse_type_mismatch
  (scanner scanner0 scanner1 scanner2 scanner3 : ConfigScanner)
  (terminators args : list ConfigToken)
  (commandToken token : ConfigToken) (d : commandDescriptor)
  (types1 types2 : list ConfigTokenType) (expected : ConfigTokenType) :
  Forall isTerminator terminators ->
  scans scanner terminators scanner0 ->
  scan scanner0 = (inl commandToken, scanner1) ->
  tokenType commandToken = CtkWord ->
  lookup (value commandToken) commandDescriptors = Some d ->
  varArgs d = false ->
  tokenTypes d = (types1 ++ expected :: types2)%list ->
  Forall2 matchesType types1 args ->
  scans scanner1 args scanner2 ->
  scan scanner2 = (inl token, scanner3) ->
  err token = None ->
  tokenType token <> CtkEOF ->
  tokenType token <> expected ->
  Parse scanner
  = Some ((None, false,
           Some (generateParseError token
                   ("Expected " ++ ConfigTokenName expected ++ " but got "
                    ++ ConfigTokenName (tokenType token) ++ ": "
                    ++ quoted (value token)))),
          discardTokensUntilNextCommand scanner3).
Proof.
  intros Hterm Hscans Hcmd Hword Hd Hfixed Htypes Hmatch Hargs Htoken
    Herr Hneof Hnexp.
  rewrite (Parse_parseCommand _ _ _ _ _ Hterm Hscans Hcmd Hword).
  unfold parseCommand. rewrite Hd, Hfixed.
  pose proof (registry_types _ _ Hd) as Hreg.
  rewrite Htypes in Hreg |- *.
  apply Forall_app in Hreg as [Hreg1 _].
  rewrite (matchTokenTypes_app _ _ _ _ _ _ Hreg1 Hmatch Hargs).
  simpl. rewrite Htoken, Herr.
  replace (ConfigTokenType_eqb (tokenType token) CtkEOF) with false
    by (symmetry; apply not_true_is_false; intros H;
        now apply ConfigTokenType_eqb_eq in H).
  replace (ConfigTokenType_eqb (tokenType token) expected) with false
    by (symmetry; apply not_true_is_false; intros H;
        now apply ConfigTokenType_eqb_eq in H).
  reflexivity.
Qed.

(** An argument token that carries a lexical error, of a fixed-arity or of
    a variable-arity command, whatever its type: [Parse] returns no command,
    [eof = false] and the error [Syntax Error] about that token, which ends
    with a colon, a space and the lexical error, and runs the recovery. *)
Theorem Parse_lexical_error_in_arguments
  (scanner scanner0 scanner1 scanner2 scanner3 : ConfigScanner)
  (terminators args : list ConfigToken)
  (commandToken token : ConfigToken) (d : commandDescriptor)
  (lexError : error) :
  Forall isTerminator terminators ->
  scans scanner terminators scanner0 ->
  scan scanner0 = (inl commandToken, scanner1) ->
  tokenType commandToken = CtkWord ->
  lookup (value commandToken) commandDescriptors = Some d ->
  readsOn d args ->
  scans scanner1 args scanner2 ->
  scan scanner2 = (inl token, scanner3) ->
  err token = Some lexError ->
  exists prefix,
    Parse scanner
    = Some ((None, false,
             Some (prefix ++ "Syntax Error" ++ ": " ++ lexError)),
            discardTokensUntilNextCommand scanner3)
    /\ generateParseError token "Syntax Error"
       = prefix ++ "Syntax Error" ++ ": " ++ lexError.
Proof.
  intros Hterm Hscans Hcmd Hword Hd Hreads Hargs Htoken Herr.
  rewrite (Parse_parseCommand _ _ _ _ _ Hterm Hscans Hcmd Hword).
  assert (Hp : parseCommand commandToken scanner1
               = Some ((None, false,
                        Some (generateParseError token "Syntax Error")),
                       scanner3)).
  { unfold parseCommand. rewrite Hd.
    unfold readsOn in Hreads. destruct (varArgs d).
    - rewrite parseVarArgsCommand_eq,
        (varArgsFrom_app _ _ _ _ _ _ Hreads Hargs), varArgsFrom_eq,
        Htoken, Herr.
      reflexivity.
    - destruct Hreads as (types1 & expected & types2 & Htypes & Hmatch).
      pose proof (registry_types _ _ Hd) as Hreg.
      rewrite Htypes in Hreg |- *.
      apply Forall_app in Hreg as [Hreg1 _].
      rewrite (matchTokenTypes_app _ _ _ _ _ _ Hreg1 Hmatch Hargs).
      simpl. now rewrite Htoken, Herr. }
  rewrite Hp, finishParse_error.
  unfold generateParseError, generateConfigError. rewrite Herr.
  eexists. split; reflexivity.
Qed.

(** ** What [scan] and [Parse] take from the scanner *)

Lemma suffix_refl (scanner : ConfigScanner) : suffix scanner scanner.
Proof. now exists []. Qed.

Lemma suffix_trans (a b c : ConfigScanner) :
  suffix a b -> suffix b c -> suffix a c.
Proof.
  intros [x ->] [y ->]. exists (y ++ x)%list. now rewrite app_assoc.
Qed.

Lemma suffix_cons (r : ScanResult) (a b : ConfigScanner) :
  suffix a b -> suffix a (r :: b).
Proof. intros [x ->]. now exists (r :: x). Qed.

Lemma suffix_length (a b : ConfigScanner) :
  suffix a b -> length a <= length b.
Proof. intros [x ->]. rewrite length_app. lia. Qed.

(** [scan] skips the white space and the comments at the head of the
    scanner, and nothing else: it returns the first result that is not one
    of them, a token or a failure, and leaves what follows it; when nothing
    but white space and comments is left, it returns the end-of-input
    token. *)
Theorem scan_skips (scanner scanner' : ConfigScanner) (r : ScanResult) :
  scan scanner = (r, scanner') ->
  exists skipped : list ConfigToken,
    forallb isWhiteSpaceOrComment skipped = true
    /\ ((scanner = (map inl skipped ++ r :: scanner')%list
         /\ significant r = true)
        \/ (scanner = map inl skipped
            /\ r = inl eofToken /\ scanner' = [])).
Proof.
  revert r scanner'.
  induction scanner as [|[token|e] rest IH]; simpl; intros r scanner' H.
  - inversion H; subst. exists []. split; [reflexivity | now right].
  - destruct (isWhiteSpaceOrComment token) eqn:Hskip.
    + destruct (IH _ _ H) as (skipped & Hall & Hshape).
      exists (token :: skipped). simpl. rewrite Hskip, Hall.
      split; [reflexivity|].
      destruct Hshape as [[-> Hsig] | (-> & -> & ->)]; [left | right]; auto.
    + inversion H; subst. exists []. split; [reflexivity | left].
      split; [reflexivity|]. simpl. now rewrite Hskip.
  - inversion H; subst. exists []. split; [reflexivity | now left].
Qed.

Lemma scan_suffix (scanner scanner' : ConfigScanner) (r : ScanResult) :
  scan scanner = (r, scanner') -> suffix scanner' scanner.
Proof.
  revert r scanner'.
  induction scanner as [|[token|e] rest IH]; simpl; intros r scanner' H.
  - inversion H; subst. apply suffix_refl.
  - destruct (isWhiteSpaceOrComment token).
    + apply suffix_cons. eauto.
    + inversion H; subst. apply suffix_cons, suffix_refl.
  - inversion H; subst. apply suffix_cons, suffix_refl.
Qed.

Lemma scan_consumes (scanner scanner' : ConfigScanner) (r : ScanResult) :
  scanner <> [] -> scan scanner = (r, scanner') ->
  length scanner' < length scanner.
Proof.
  destruct scanner as [|[token|e] rest]; simpl; intros Hne H;
    [now elim Hne | |].
  - destruct (isWhiteSpaceOrComment token).
    + apply scan_suffix, suffix_length in H. lia.
    + inversion H; subst. lia.
  - inversion H; subst. lia.
Qed.

Lemma matchTokenTypes_suffix
  (types : list ConfigTokenType) (acc : list ConfigToken)
  (scanner scanner' : ConfigScanner) (x : ParseResult + list ConfigToken) :
  matchTokenTypes types acc scanner = (x, scanner') ->
  suffix scanner' scanner.
Proof.
  revert acc scanner.
  induction types as [|expected types IH]; intros acc scanner H; simpl in H.
  - inversion H; subst. apply suffix_refl.
  - destruct (scan scanner) as [[token|e] scanner1] eqn:Hscan;
      apply scan_suffix in Hscan.
    + destruct (err token); [inversion H; subst; exact Hscan|].
      destruct (ConfigTokenType_eqb (tokenType token) CtkEOF);
        [inversion H; subst; exact Hscan|].
      destruct (negb (ConfigTokenType_eqb (tokenType token) expected));
        [inversion H; subst; exact Hscan|].
      eapply suffix_trans; eauto.
    + inversion H; subst. exact Hscan.
Qed.

Lemma construct_scanner
  (d : commandDescriptor) (commandToken : ConfigToken)
  (tokens : list ConfigToken) (scanner scanner' : ConfigScanner)
  (r : ParseResult) :
  construct d commandToken tokens scanner = Some (r, scanner') ->
  scanner' = scanner
  /\ exists command e,
      r = (command, false, e)
      /\ constructor d commandToken tokens = Some (command, e).
Proof.
  unfold construct.
  destruct (constructor d commandToken tokens) as [[command e]|];
    intros H; inversion H; subst. eauto.
Qed.

Lemma varArgsFrom_suffix
  (d : commandDescriptor) (commandToken : ConfigToken) (n : nat) :
  forall (tokens : list ConfigToken) (scanner scanner' : ConfigScanner)
         (r : ParseResult),
    length scanner < n ->
    varArgsFrom d commandToken tokens scanner = Some (r, scanner') ->
    suffix scanner' scanner.
Proof.
  induction n as [|n IH]; intros tokens scanner scanner' r Hn H; [lia|].
  rewrite varArgsFrom_eq in H.
  destruct (scan scanner) as [[token|e] scanner1] eqn:Hscan;
    pose proof (scan_suffix _ _ _ Hscan) as Hsuf.
  - destruct (err token); [inversion H; subst; exact Hsuf|].
    destruct (isTerminatorOrEOF token) eqn:Hstop.
    + apply construct_scanner in H as [-> _]. exact Hsuf.
    + apply isTerminatorOrEOF_false in Hstop as [Hne _].
      pose proof (scan_progress _ _ _ Hscan Hne).
      assert (Hlt : length scanner1 < n) by lia.
      eapply suffix_trans; [eapply IH; eauto | exact Hsuf].
  - inversion H; subst. exact Hsuf.
Qed.

Lemma parseCommand_suffix
  (commandToken : ConfigToken) (scanner scanner' : ConfigScanner)
  (r : ParseResult) :
  parseCommand commandToken scanner = Some (r, scanner') ->
  suffix scanner' scanner.
Proof.
  unfold parseCommand. intros H.
  destruct (lookup (value commandToken) commandDescriptors) as [d|].
  - destruct (varArgs d).
    + rewrite parseVarArgsCommand_eq in H.
      eapply (varArgsFrom_suffix _ _ (S (length scanner))); eauto.
    + destruct (matchTokenTypes (tokenTypes d) [] scanner)
        as [[r0|tokens] scanner1] eqn:Hmatch;
        apply matchTokenTypes_suffix in Hmatch.
      * inversion H; subst. exact Hmatch.
      * apply construct_scanner in H as [-> _]. exact Hmatch.
  - inversion H; subst. apply suffix_refl.
Qed.

Lemma discardTokensUntilNextCommand_suffix (n : nat) :
  forall scanner : ConfigScanner,
    length scanner < n ->
    suffix (discardTokensUntilNextCommand scanner) scanner.
Proof.
  induction n as [|n IH]; intros scanner Hn; [lia|].
  rewrite discardTokensUntilNextCommand_eq.
  destruct (scan scanner) as [[token|e] scanner1] eqn:Hscan;
    pose proof (scan_suffix _ _ _ Hscan) as Hsuf; [|exact Hsuf].
  destruct (isTerminatorOrEOF token) eqn:Hstop; [exact Hsuf|].
  apply isTerminatorOrEOF_false in Hstop as [Hne _].
  pose proof (scan_progress _ _ _ Hscan Hne).
  eapply suffix_trans; [apply IH; lia | exact Hsuf].
Qed.

Lemma finishParse_suffix
  (r r' : ParseResult) (scanner scanner' : ConfigScanner) :
  finishParse r scanner = (r', scanner') -> suffix scanner' scanner.
Proof.
  destruct r as [[command eof] [e|]]; simpl; intros H; inversion H; subst.
  - apply (discardTokensUntilNextCommand_suffix (S (length scanner))). lia.
  - apply suffix_refl.
Qed.

Lemma Some_eq {A : Type} (a b : A) : Some a = Some b -> a = b.
Proof. intros H. now inversion H. Qed.

Lemma Parse_suffix (n : nat) :
  forall (scanner scanner' : ConfigScanner) (r : ParseResult),
    length scanner < n ->
    Parse scanner = Some (r, scanner') ->
    suffix scanner' scanner.
Proof.
  induction n as [|n IH]; intros scanner scanner' r Hn H; [lia|].
  rewrite Parse_eq in H.
  destruct (scan scanner) as [[token|e] scanner1] eqn:Hscan;
    pose proof (scan_suffix _ _ _ Hscan) as Hsuf.
  - unfold dispatch in H.
    destruct (tokenType token) eqn:Hty;
      try (apply Some_eq, finishParse_suffix in H;
           eapply suffix_trans; eauto).
    + destruct (parseCommand token scanner1) as [[r1 scanner2]|] eqn:Hp;
        [|discriminate H].
      apply Some_eq, finishParse_suffix in H.
      apply parseCommand_suffix in Hp.
      eapply suffix_trans; [exact H|]. eapply suffix_trans; eauto.
    + assert (Hne : tokenType token <> CtkEOF) by congruence.
      pose proof (scan_progress _ _ _ Hscan Hne).
      eapply suffix_trans; [eapply IH; eauto; lia | exact Hsuf].
  - inversion H; subst. exact Hsuf.
Qed.

(** [Parse] only takes results from the head of the scanner, and it takes
    at least one whenever the scanner still holds one: a caller that calls
    [Parse] again and again runs through the whole input. *)
Theorem Parse_progress
  (scanner scanner' : ConfigScanner) (r : ParseResult) :
  Parse scanner = Some (r, scanner') ->
  suffix scanner' scanner
  /\ (scanner <> [] -> length scanner' < length scanner).
Proof.
  intros H. split.
  - apply (Parse_suffix (S (length scanner)) _ _ r); [lia | exact H].
  - intros Hne. rewrite Parse_eq in H.
    destruct (scan scanner) as [[token|e] scanner1] eqn:Hscan;
      pose proof (scan_consumes _ _ _ Hne Hscan) as Hlt.
    + unfold dispatch in H.
      destruct (tokenType token) eqn:Hty;
        try (apply Some_eq, finishParse_suffix, suffix_length in H; lia).
      * destruct (parseCommand token scanner1) as [[r1 scanner2]|] eqn:Hp;
          [|discriminate H].
        apply Some_eq, finishParse_suffix, suffix_length in H.
        apply parseCommand_suffix, suffix_length in Hp. lia.
      * apply (Parse_suffix (S (length scanner1))) in H; [|lia].
        apply suffix_length in H. lia.
    + inversion H; subst. exact Hlt.
Qed.

(** ** The three results of [Parse] *)

Lemma themeCommandLoop_shape
  (tokens : list ConfigToken) (c : ThemeCommand)
  (command : option ConfigCommand) (e : option error) :
  themeCommandLoop tokens c = Some (command, e) ->
  wellFormedResult (command, false, e).
Proof.
  revert c.
  induction tokens as [| a | o v tokens IH] using list_pair_ind;
    intros c H; try (inversion H; subst; reflexivity).
  cbn [themeCommandLoop] in H.
  destruct (lookup (value o) optionSetters); [eauto|].
  inversion H; subst. exact I.
Qed.

Lemma constructor_shape
  (key : string) (d : commandDescriptor) (commandToken : ConfigToken)
  (tokens : list ConfigToken) (command : option ConfigCommand)
  (e : option error) :
  lookup key commandDescriptors = Some d ->
  constructor d commandToken tokens = Some (command, e) ->
  wellFormedResult (command, false, e).
Proof.
  intros Hd H.
  registry_cases Hd; cbn [constructor] in H.
  - unfold setCommandConstructor in H.
    destruct tokens as [|? [|? ?]]; inversion H; subst; reflexivity.
  - eapply themeCommandLoop_shape; eauto.
  - unfold mapCommandConstructor in H.
    destruct tokens as [|? [|? [|? ?]]]; inversion H; subst; reflexivity.
  - unfold unmapCommandConstructor in H.
    destruct tokens as [|? [|? ?]]; inversion H; subst; reflexivity.
  - inversion H; subst; reflexivity.
  - unfold newTabCommandConstructor in H.
    destruct tokens as [|? ?]; inversion H; subst; reflexivity.
  - inversion H; subst; reflexivity.
  - unfold addViewCommandConstructor in H.
    destruct tokens as [|? ?]; inversion H; subst; simpl; auto.
  - unfold splitViewCommandConstructor in H.
    destruct tokens as [|? ?]; [inversion H; subst; exact I|].
    repeat match type of H with
           | context [String.eqb ?a ?b] => destruct (String.eqb a b)
           end; inversion H; subst; simpl; auto.
  - unfold splitViewCommandConstructor in H.
    destruct tokens as [|? ?]; [inversion H; subst; exact I|].
    repeat match type of H with
           | context [String.eqb ?a ?b] => destruct (String.eqb a b)
           end; inversion H; subst; simpl; auto.
  - unfold splitViewCommandConstructor in H.
    destruct tokens as [|? ?]; [inversion H; subst; exact I|].
    repeat match type of H with
           | context [String.eqb ?a ?b] => destruct (String.eqb a b)
           end; inversion H; subst; simpl; auto.
Qed.

Lemma matchTokenTypes_shape
  (types : list ConfigTokenType) (tokens : list ConfigToken)
  (scanner scanner' : ConfigScanner) (r : ParseResult) :
  matchTokenTypes types tokens scanner = (inl r, scanner') ->
  wellFormedResult r.
Proof.
  revert tokens scanner.
  induction types as [|expected types IH]; intros tokens scanner H;
    simpl in H; [discriminate|].
  destruct (scan scanner) as [[token|e] scanner1];
    [|inversion H; subst; exact I].
  destruct (err token); [inversion H; subst; exact I|].
  destruct (ConfigTokenType_eqb (tokenType token) CtkEOF);
    [inversion H; subst; exact I|].
  destruct (negb (ConfigTokenType_eqb (tokenType token) expected));
    [inversion H; subst; exact I | eauto].
Qed.

Lemma varArgsFrom_shape
  (key : string) (d : commandDescriptor) (commandToken : ConfigToken)
  (n : nat) :
  lookup key commandDescriptors = Some d ->
  forall (tokens : list ConfigToken) (scanner scanner' : ConfigScanner)
         (r : ParseResult),
    length scanner < n ->
    varArgsFrom d commandToken tokens scanner = Some (r, scanner') ->
    wellFormedResult r.
Proof.
  intros Hd.
  induction n as [|n IH]; intros tokens scanner scanner' r Hn H; [lia|].
  rewrite varArgsFrom_eq in H.
  destruct (scan scanner) as [[token|e] scanner1] eqn:Hscan;
    [|inversion H; subst; exact I].
  destruct (err token); [inversion H; subst; exact I|].
  destruct (isTerminatorOrEOF token) eqn:Hstop.
  - apply construct_scanner in H as (_ & command & e & -> & Hc).
    eapply constructor_shape; eauto.
  - apply isTerminatorOrEOF_false in Hstop as [Hne _].
    pose proof (scan_progress _ _ _ Hscan Hne).
    assert (Hlt : length scanner1 < n) by lia. eauto.
Qed.

Lemma parseCommand_shape
  (commandToken : ConfigToken) (scanner scanner' : ConfigScanner)
  (r : ParseResult) :
  parseCommand commandToken scanner = Some (r, scanner') ->
  wellFormedResult r.
Proof.
  unfold parseCommand. intros H.
  destruct (lookup (value commandToken) commandDescriptors) as [d|] eqn:Hd;
    [|inversion H; subst; exact I].
  destruct (varArgs d).
  - rewrite parseVarArgsCommand_eq in H.
    eapply (varArgsFrom_shape _ _ _ (S (length scanner))); eauto.
  - destruct (matchTokenTypes (tokenTypes d) [] scanner)
      as [[r0|tokens] scanner1] eqn:Hmatch.
    + inversion H; subst. eapply matchTokenTypes_shape; eauto.
    + apply construct_scanner in H as (_ & command & e & -> & Hc).
      eapply constructor_shape; eauto.
Qed.

Lemma Parse_shape (n : nat) :
  forall (scanner scanner' : ConfigScanner) (r : ParseResult),
    length scanner < n ->
    Parse scanner = Some (r, scanner') ->
    wellFormedResult r.
Proof.
  induction n as [|n IH]; intros scanner scanner' r Hn H; [lia|].
  rewrite Parse_eq in H.
  destruct (scan scanner) as [[token|e] scanner1] eqn:Hscan;
    [|inversion H; subst; exact I].
  unfold dispatch in H.
  destruct (tokenType token) eqn:Hty;
    try (apply Some_eq, (f_equal fst) in H;
         rewrite finishParse_result in H; cbn [fst] in H; subst r;
         simpl; auto; fail).
  - destruct (parseCommand token scanner1) as [[r1 scanner2]|] eqn:Hp;
      [|discriminate H].
    apply Some_eq, (f_equal fst) in H.
    rewrite finishParse_result in H. cbn [fst] in H. subst r1.
    eapply parseCommand_shape; eauto.
  - assert (Hne : tokenType token <> CtkEOF) by congruence.
    pose proof (scan_progress _ _ _ Hscan Hne).
    assert (Hlt : length scanner1 < n) by lia. eauto.
Qed.

(** [Parse] returns a command with no error and [eof = false], or an error
    with no command, or neither of them with [eof = true]: never a command
    together with an error, never a command at the end of the input, and
    never nothing at all before the end of the input. *)
Theorem Parse_result
  (scanner scanner' : ConfigScanner)
  (command : option ConfigCommand) (eof : bool) (e : option error) :
  Parse scanner = Some ((command, eof, e), scanner') ->
  (exists c, command = Some c /\ eof = false /\ e = None)
  \/ (command = None /\ exists message, e = Some message)
  \/ (command = None /\ eof = true /\ e = None).
Proof.
  intros H.
  apply (Parse_shape (S (length scanner))) in H; [|lia].
  destruct command as [c|], e as [message|]; simpl in H.
  - contradiction.
  - left. eauto.
  - right. left. eauto.
  - right. right. auto.
Qed.

(** ** White space and comments *)

Lemma scan_strip (scanner : ConfigScanner) :
  scan (strip scanner)
  = (fst (scan scanner), strip (snd (scan scanner))).
Proof.
  induction scanner as [|[token|e] rest IH]; simpl.
  - reflexivity.
  - destruct (isWhiteSpaceOrComment token) eqn:Hskip; simpl.
    + exact IH.
    + now rewrite Hskip.
  - reflexivity.
Qed.

Lemma matchTokenTypes_strip
  (types : list ConfigTokenType) (acc : list ConfigToken)
  (scanner : ConfigScanner) :
  matchTokenTypes types acc (strip scanner)
  = (fst (matchTokenTypes types acc scanner),
     strip (snd (matchTokenTypes types acc scanner))).
Proof.
  revert acc scanner.
  induction types as [|expected types IH]; intros acc scanner; simpl.
  - reflexivity.
  - rewrite scan_strip.
    destruct (scan scanner) as [[token|e] scanner1]; simpl; [|reflexivity].
    destruct (err token); [reflexivity|].
    destruct (ConfigTokenType_eqb (tokenType token) CtkEOF); [reflexivity|].
    destruct (negb (ConfigTokenType_eqb (tokenType token) expected));
      [reflexivity | apply IH].
Qed.

Lemma discardTokensUntilNextCommand_strip (n : nat) :
  forall scanner : ConfigScanner,
    length scanner < n ->
    discardTokensUntilNextCommand (strip scanner)
    = strip (discardTokensUntilNextCommand scanner).
Proof.
  induction n as [|n IH]; intros scanner Hn; [lia|].
  rewrite (discardTokensUntilNextCommand_eq (strip scanner)),
    (discardTokensUntilNextCommand_eq scanner), scan_strip.
  destruct (scan scanner) as [[token|e] scanner1] eqn:Hscan; simpl;
    [|reflexivity].
  destruct (isTerminatorOrEOF token) eqn:Hstop; [reflexivity|].
  apply isTerminatorOrEOF_false in Hstop as [Hne _].
  pose proof (scan_progress _ _ _ Hscan Hne).
  apply IH. lia.
Qed.

Lemma construct_strip
  (d : commandDescriptor) (commandToken : ConfigToken)
  (tokens : list ConfigToken) (scanner : ConfigScanner) :
  construct d commandToken tokens (strip scanner)
  = stripped (construct d commandToken tokens scanner).
Proof.
  unfold construct.
  destruct (constructor d commandToken tokens) as [[command e]|]; reflexivity.
Qed.

Lemma varArgsFrom_strip
  (d : commandDescriptor) (commandToken : ConfigToken) (n : nat) :
  forall (tokens : list ConfigToken) (scanner : ConfigScanner),
    length scanner < n ->
    varArgsFrom d commandToken tokens (strip scanner)
    = stripped (varArgsFrom d commandToken tokens scanner).
Proof.
  induction n as [|n IH]; intros tokens scanner Hn; [lia|].
  rewrite (varArgsFrom_eq _ _ _ (strip scanner)),
    (varArgsFrom_eq _ _ _ scanner), scan_strip.
  destruct (scan scanner) as [[token|e] scanner1] eqn:Hscan; simpl;
    [|reflexivity].
  destruct (err token); [reflexivity|].
  destruct (isTerminatorOrEOF token) eqn:Hstop; [apply construct_strip|].
  apply isTerminatorOrEOF_false in Hstop as [Hne _].
  pose proof (scan_progress _ _ _ Hscan Hne).
  apply IH. lia.
Qed.

Lemma parseCommand_strip
  (commandToken : ConfigToken) (scanner : ConfigScanner) :
  parseCommand commandToken (strip scanner)
  = stripped (parseCommand commandToken scanner).
Proof.
  unfold parseCommand.
  destruct (lookup (value commandToken) commandDescriptors) as [d|];
    [|reflexivity].
  destruct (varArgs d).
  - rewrite !parseVarArgsCommand_eq.
    apply (varArgsFrom_strip _ _ (S (length scanner))). lia.
  - rewrite matchTokenTypes_strip.
    destruct (matchTokenTypes (tokenTypes d) [] scanner)
      as [[r|tokens] scanner1]; simpl; [reflexivity | apply construct_strip].
Qed.

Lemma finishParse_strip (r : ParseResult) (scanner : ConfigScanner) :
  finishParse r (strip scanner)
  = (fst (finishParse r scanner), strip (snd (finishParse r scanner))).
Proof.
  destruct r as [[command eof] [e|]]; simpl; [|reflexivity].
  now rewrite (discardTokensUntilNextCommand_strip (S (length scanner)))
    by lia.
Qed.

Lemma Parse_strip (n : nat) :
  forall scanner : ConfigScanner,
    length scanner < n ->
    Parse (strip scanner) = stripped (Parse scanner).
Proof.
  induction n as [|n IH]; intros scanner Hn; [lia|].
  rewrite (Parse_eq (strip scanner)), (Parse_eq scanner), scan_strip.
  destruct (scan scanner) as [[token|e] scanner1] eqn:Hscan; simpl;
    [|reflexivity].
  unfold dispatch.
  destruct (tokenType token) eqn:Hty;
    try (rewrite finishParse_strip; reflexivity).
  - rewrite parseCommand_strip.
    destruct (parseCommand token scanner1) as [[r scanner2]|]; simpl;
      [|reflexivity].
    now rewrite finishParse_strip.
  - assert (Hne : tokenType token <> CtkEOF) by congruence.
    pose proof (scan_progress _ _ _ Hscan Hne).
    apply IH. lia.
Qed.

(** White space and comments never change what [Parse] returns: two inputs
    that differ only in their white space and comments give the same
    command, the same [eof] and the same error, and leave scanners that
    again differ only in white space and comments. *)
Theorem Parse_ignores_white_space (scanner1 scanner2 : ConfigScanner) :
  strip scanner1 = strip scanner2 ->
  stripped (Parse scanner1) = stripped (Parse scanner2).
Proof.
  intros H.
  rewrite <- (Parse_strip (S (length scanner1))) by lia.
  rewrite <- (Parse_strip (S (length scanner2))) by lia.
  now rewrite H.
Qed.

(** ** What a command leaves and holds *)

(** A fixed-arity command reads its arguments and nothing more: after a
    well-formed command [Parse] leaves the scanner right after the last
    argument, whatever comes next; the terminator is not read, and tokens
    in excess are not noticed by this call. *)
Theorem Parse_fixed_leaves_rest
  (scanner scanner0 scanner1 scanner2 : ConfigScanner)
  (terminators args : list ConfigToken)
  (commandToken : ConfigToken) (d : commandDescriptor) :
  Forall isTerminator terminators ->
  scans scanner terminators scanner0 ->
  scan scanner0 = (inl commandToken, scanner1) ->
  tokenType commandToken = CtkWord ->
  lookup (value commandToken) commandDescriptors = Some d ->
  varArgs d = false ->
  Forall2 matchesType (tokenTypes d) args ->
  scans scanner1 args scanner2 ->
  (value commandToken = themeCommand -> optionsRecognised args = true) ->
  exists command,
    Parse scanner = Some ((Some command, false, None), scanner2).
Proof.
  intros Hterm Hscans Hcmd Hword Hd Hfixed Hmatch Hargs Htheme.
  assert (Hgrammar : satisfiesGrammar d args)
    by (unfold satisfiesGrammar; now rewrite Hfixed).
  destruct (constructor_expected _ _ _ Hd Hgrammar Htheme)
    as (command & _ & Hconstructor).
  exists command.
  rewrite (Parse_parseCommand _ _ _ _ _ Hterm Hscans Hcmd Hword).
  rewrite (parseCommand_fixed _ _ _ _ _ Hd Hfixed Hmatch Hargs).
  unfold construct. now rewrite Hconstructor.
Qed.

Lemma themeCommandLoop_odd_token
  (pairs : list (ConfigToken * ConfigToken)) (last : ConfigToken)
  (c : ThemeCommand) :
  themeCommandLoop (flattenPairs pairs ++ [last])%list c
  = themeCommandLoop (flattenPairs pairs) c.
Proof.
  revert c.
  induction pairs as [|[o v] pairs IH]; intros c.
  - reflexivity.
  - cbn [flattenPairs app themeCommandLoop].
    destruct (lookup (value o) optionSetters); [apply IH | reflexivity].
Qed.

(** The theme constructor takes its tokens two at a time: a last token
    without a partner is ignored, it is neither stored nor reported, even
    when it is an unknown option. *)
Theorem themeCommandConstructor_odd_token
  (commandToken last : ConfigToken)
  (pairs : list (ConfigToken * ConfigToken)) :
  themeCommandConstructor commandToken (flattenPairs pairs ++ [last])%list
  = themeCommandConstructor commandToken (flattenPairs pairs).
Proof. unfold themeCommandConstructor. apply themeCommandLoop_odd_token. Qed.

Lemma scan_token_In (scanner scanner' : ConfigScanner) (token : ConfigToken) :
  scan scanner = (inl token, scanner') ->
  tokenType token <> CtkEOF ->
  In (inl token) scanner.
Proof.
  revert scanner'.
  induction scanner as [|[t|e] rest IH]; simpl; intros scanner' H Hne.
  - inversion H; subst. now elim Hne.
  - destruct (isWhiteSpaceOrComment t).
    + right. eauto.
    + inversion H; subst. now left.
  - discriminate.
Qed.

Lemma scan_not_skipped (scanner scanner' : ConfigScanner) (token : ConfigToken) :
  scan scanner = (inl token, scanner') ->
  isWhiteSpaceOrComment token = false.
Proof.
  revert scanner'.
  induction scanner as [|[t|e] rest IH]; simpl; intros scanner' H.
  - now inversion H.
  - destruct (isWhiteSpaceOrComment t) eqn:E; [eauto|].
    now inversion H; subst.
  - discriminate.
Qed.

Lemma argumentOf_incl (scanner scanner' : ConfigScanner) (token : ConfigToken) :
  incl scanner' scanner -> argumentOf scanner' token -> argumentOf scanner token.
Proof. intros Hincl (Hin & Hrest). split; auto. Qed.

Lemma matchTokenTypes_tokens
  (types : list ConfigTokenType) (acc tokens : list ConfigToken)
  (scanner scanner' : ConfigScanner) :
  Forall (fun t => t = CtkWord \/ t = CtkOption) types ->
  matchTokenTypes types acc scanner = (inr tokens, scanner') ->
  exists got,
    tokens = (acc ++ got)%list /\ Forall (argumentOf scanner) got.
Proof.
  intros Hty. revert acc scanner.
  induction Hty as [|expected types Hexp _ IH]; intros acc scanner H;
    simpl in H.
  - inversion H; subst. exists []. now rewrite app_nil_r.
  - destruct (scan scanner) as [[token|e] scanner1] eqn:Hscan;
      [|discriminate H].
    destruct (err token) eqn:Herr; [discriminate H|].
    destruct (ConfigTokenType_eqb (tokenType token) CtkEOF) eqn:Heof;
      [discriminate H|].
    destruct (ConfigTokenType_eqb (tokenType token) expected) eqn:Hsame;
      [|discriminate H].
    apply ConfigTokenType_eqb_eq in Hsame.
    destruct (IH _ _ H) as (got & -> & Hgot).
    exists (token :: got). rewrite <- app_assoc. split; [reflexivity|].
    constructor.
    + repeat split; auto.
      * eapply scan_token_In; eauto.
        destruct Hexp as [-> | ->]; congruence.
      * eapply scan_not_skipped; eauto.
      * unfold isTerminatorOrEOF. rewrite Hsame.
        destruct Hexp as [-> | ->]; reflexivity.
    + eapply Forall_impl; [|exact Hgot].
      intros t. apply argumentOf_incl. eapply scan_incl; eauto.
Qed.

Lemma varArgsFrom_tokens
  (d : commandDescriptor) (commandToken : ConfigToken) (n : nat) :
  forall (acc : list ConfigToken) (scanner scanner' : ConfigScanner)
         (command : ConfigCommand) (eof : bool) (e : option error),
    length scanner < n ->
    varArgsFrom d commandToken acc scanner
    = Some ((Some command, eof, e), scanner') ->
    exists got e',
      Forall (argumentOf scanner) got
      /\ constructor d commandToken (acc ++ got)%list
         = Some (Some command, e').
Proof.
  induction n as [|n IH];
    intros acc scanner scanner' command eof e Hn H; [lia|].
  rewrite varArgsFrom_eq in H.
  destruct (scan scanner) as [[token|e0] scanner1] eqn:Hscan;
    [|discriminate H].
  destruct (err token) eqn:Herr; [discriminate H|].
  destruct (isTerminatorOrEOF token) eqn:Hstop.
  - apply construct_scanner in H as (_ & c & e' & Hr & Hc).
    inversion Hr; subst. exists [], e'. rewrite app_nil_r. auto.
  - pose proof (isTerminatorOrEOF_false _ Hstop) as [Hne _].
    pose proof (scan_progress _ _ _ Hscan Hne).
    assert (Hlt : length scanner1 < n) by lia.
    destruct (IH _ _ _ _ _ _ Hlt H) as (got & e' & Hgot & Hc).
    exists (token :: got), e'. rewrite <- app_assoc in Hc.
    split; [|exact Hc].
    constructor.
    + repeat split; auto.
      * eapply scan_token_In; eauto.
      * eapply scan_not_skipped; eauto.
    + eapply Forall_impl; [|exact Hgot].
      intros t. apply argumentOf_incl. eapply scan_incl; eauto.
Qed.

Lemma optionSetter_tokens
  (key : string) (optionSetter : ConfigToken -> ThemeCommand -> ThemeCommand)
  (valueToken : ConfigToken) (c : ThemeCommand) :
  lookup key optionSetters = Some optionSetter ->
  incl (commandTokens (ThemeCmd (optionSetter valueToken c)))
    (valueToken :: commandTokens (ThemeCmd c)).
Proof.
  unfold optionSetters. cbn [lookup].
  repeat match goal with
         | |- context [String.eqb ?a ?b] => destruct (String.eqb a b)
         end;
    intros H; inversion H; subst; clear H;
    destruct c as [[n|] [co|] [b|] [f|]]; simpl;
    intros x Hx; simpl in Hx |- *; tauto.
Qed.

Lemma themeCommandLoop_tokens
  (tokens : list ConfigToken) (c : ThemeCommand)
  (command : ConfigCommand) (e : option error) :
  themeCommandLoop tokens c = Some (Some command, e) ->
  incl (commandTokens command) (commandTokens (ThemeCmd c) ++ tokens)%list.
Proof.
  revert c.
  induction tokens as [| a | o v tokens IH] using list_pair_ind;
    intros c H.
  - inversion H; subst. rewrite app_nil_r. apply incl_refl.
  - inversion H; subst. apply incl_appl, incl_refl.
  - cbn [themeCommandLoop] in H.
    destruct (lookup (value o) optionSetters) as [optionSetter|] eqn:Hopt;
      [|discriminate H].
    apply IH in H.
    pose proof (optionSetter_tokens _ _ v c Hopt) as Hset.
    intros x Hx. apply H in Hx.
    apply in_app_or in Hx as [Hx | Hx].
    + apply Hset in Hx as [<- | Hx].
      * apply in_or_app. right. right. now left.
      * apply in_or_app. now left.
    + apply in_or_app. right. right. now right.
Qed.

Lemma constructor_tokens
  (key : string) (d : commandDescriptor) (commandToken : ConfigToken)
  (tokens : list ConfigToken) (command : ConfigCommand) (e : option error) :
  lookup key commandDescriptors = Some d ->
  constructor d commandToken tokens = Some (Some command, e) ->
  incl (commandTokens command) tokens.
Proof.
  intros Hd H.
  registry_cases Hd; cbn [constructor] in H.
  - unfold setCommandConstructor in H.
    destruct tokens as [|? [|? ?]]; inversion H; subst; simpl.
    intros x Hx; simpl in *; intuition.
  - apply themeCommandLoop_tokens in H. exact H.
  - unfold mapCommandConstructor in H.
    destruct tokens as [|? [|? [|? ?]]]; inversion H; subst; simpl.
    intros x Hx; simpl in *; intuition.
  - unfold unmapCommandConstructor in H.
    destruct tokens as [|? [|? ?]]; inversion H; subst; simpl.
    intros x Hx; simpl in *; intuition.
  - inversion H; subst. intros x Hx. inversion Hx.
  - unfold newTabCommandConstructor in H.
    destruct tokens as [|? ?]; inversion H; subst; simpl.
    intros x Hx; simpl in *; intuition.
  - inversion H; subst. intros x Hx. inversion Hx.
  - unfold addViewCommandConstructor in H.
    destruct tokens as [|? ?]; inversion H; subst. apply incl_refl.
  - unfold splitViewCommandConstructor in H.
    destruct tokens as [|? ?]; [discriminate H|].
    repeat match type of H with
           | context [String.eqb ?a ?b] => destruct (String.eqb a b)
           end; inversion H; subst; apply incl_refl.
  - unfold splitViewCommandConstructor in H.
    destruct tokens as [|? ?]; [discriminate H|].
    repeat match type of H with
           | context [String.eqb ?a ?b] => destruct (String.eqb a b)
           end; inversion H; subst; apply incl_refl.
  - unfold splitViewCommandConstructor in H.
    destruct tokens as [|? ?]; [discriminate H|].
    repeat match type of H with
           | context [String.eqb ?a ?b] => destruct (String.eqb a b)
           end; inversion H; subst; apply incl_refl.
Qed.

Lemma matchTokenTypes_no_command
  (types : list ConfigTokenType) (tokens : list ConfigToken)
  (scanner scanner' : ConfigScanner) (r : ParseResult) :
  matchTokenTypes types tokens scanner = (inl r, scanner') ->
  fst (fst r) = None.
Proof.
  revert tokens scanner.
  induction types as [|expected types IH]; intros tokens scanner H;
    simpl in H; [discriminate|].
  destruct (scan scanner) as [[token|e] scanner1];
    [|inversion H; subst; reflexivity].
  destruct (err token); [inversion H; subst; reflexivity|].
  destruct (ConfigTokenType_eqb (tokenType token) CtkEOF);
    [inversion H; subst; reflexivity|].
  destruct (negb (ConfigTokenType_eqb (tokenType token) expected));
    [inversion H; subst; reflexivity | eauto].
Qed.

Lemma parseCommand_tokens
  (commandToken : ConfigToken) (scanner scanner' : ConfigScanner)
  (command : ConfigCommand) (eof : bool) (e : option error) :
  parseCommand commandToken scanner
  = Some ((Some command, eof, e), scanner') ->
  Forall (argumentOf scanner) (commandTokens command).
Proof.
  unfold parseCommand. intros H.
  destruct (lookup (value commandToken) commandDescriptors) as [d|] eqn:Hd;
    [|discriminate H].
  destruct (varArgs d).
  - rewrite parseVarArgsCommand_eq in H.
    apply (varArgsFrom_tokens _ _ (S (length scanner))) in H; [|lia].
    destruct H as (got & e' & Hgot & Hc).
    apply (constructor_tokens _ _ _ _ _ _ Hd) in Hc.
    apply Forall_forall. intros t Ht.
    rewrite Forall_forall in Hgot. apply Hgot, Hc, Ht.
  - destruct (matchTokenTypes (tokenTypes d) [] scanner)
      as [[r|tokens] scanner1] eqn:Hmatch.
    + apply matchTokenTypes_no_command in Hmatch.
      inversion H; subst. discriminate Hmatch.
    + apply matchTokenTypes_tokens in Hmatch as (got & -> & Hgot);
        [|eapply registry_types; eauto].
      apply construct_scanner in H as (_ & c & e' & Hr & Hc).
      inversion Hr; subst.
      apply (constructor_tokens _ _ _ _ _ _ Hd) in Hc.
      apply Forall_forall. intros t Ht.
      rewrite Forall_forall in Hgot. apply Hgot, Hc, Ht.
Qed.

Lemma Parse_tokens (n : nat) :
  forall (scanner scanner' : ConfigScanner)
         (command : ConfigCommand) (eof : bool) (e : option error),
    length scanner < n ->
    Parse scanner = Some ((Some command, eof, e), scanner') ->
    Forall (argumentOf scanner) (commandTokens command).
Proof.
  induction n as [|n IH]; intros scanner scanner' command eof e Hn H; [lia|].
  rewrite Parse_eq in H.
  destruct (scan scanner) as [[token|e0] scanner1] eqn:Hscan;
    [|discriminate H].
  pose proof (scan_incl _ _ _ Hscan) as Hincl.
  unfold dispatch in H.
  destruct (tokenType token) eqn:Hty;
    try (apply Some_eq, (f_equal fst) in H;
         rewrite finishParse_result in H; discriminate H).
  - destruct (parseCommand token scanner1) as [[r1 scanner2]|] eqn:Hp;
      [|discriminate H].
    apply Some_eq, (f_equal fst) in H.
    rewrite finishParse_result in H. cbn [fst] in H. subst r1.
    apply parseCommand_tokens in Hp.
    eapply Forall_impl; [|exact Hp].
    intros t. now apply argumentOf_incl.
  - assert (Hne : tokenType token <> CtkEOF) by congruence.
    pose proof (scan_progress _ _ _ Hscan Hne).
    assert (Hlt : length scanner1 < n) by lia.
    eapply Forall_impl; [|eapply IH; eauto].
    intros t. now apply argumentOf_incl.
Qed.

(** Every token that a command returned by [Parse] holds was handed out by
    the scanner, carries no lexical error, and is neither white space, a
    comment, a terminator nor the end of the input: the parser makes up no
    token. *)
Theorem Parse_command_tokens
  (scanner scanner' : ConfigScanner)
  (command : ConfigCommand) (eof : bool) (e : option error) :
  Parse scanner = Some ((Some command, eof, e), scanner') ->
  Forall (argumentOf scanner) (commandTokens command).
Proof.
  intros H. apply (Parse_tokens (S (length scanner))) in H; [exact H | lia].
Qed.

(** A variable-arity command takes every token up to the terminator (or
    the end of the input) that ends it, of whatever type, words, options
    and invalid tokens alike, and takes that terminator too: the command
    holds all of them, in the order given, and the scanner is left right
    after the terminator. *)
Theorem Parse_varArgs_takes_line
  (scanner scanner0 scanner1 scanner2 scanner3 : ConfigScanner)
  (terminators args : list ConfigToken)
  (commandToken last : ConfigToken) (d : commandDescriptor) :
  Forall isTerminator terminators ->
  scans scanner terminators scanner0 ->
  scan scanner0 = (inl commandToken, scanner1) ->
  tokenType commandToken = CtkWord ->
  lookup (value commandToken) commandDescriptors = Some d ->
  varArgs d = true ->
  args <> [] ->
  Forall argToken args ->
  scans scanner1 args scanner2 ->
  scan scanner2 = (inl last, scanner3) ->
  endToken last ->
  exists command,
    Parse scanner = Some ((Some command, false, None), scanner3)
    /\ commandTokens command = args.
Proof.
  intros Hterm Hscans Hcmd Hword Hd Hvar Hne Hargs Hread Hlast Hend.
  rewrite (Parse_parseCommand _ _ _ _ _ Hterm Hscans Hcmd Hword).
  rewrite (parseCommand_varArgs _ _ _ _ _ _ _
             Hd Hvar Hargs Hread Hlast Hend).
  unfold construct.
  destruct args as [|first rest]; [now elim Hne|].
  destruct (varArgs_names _ _ Hd Hvar) as [[_ Hc] | [Hkey Hc]]; rewrite Hc.
  - eexists. split; reflexivity.
  - unfold splitViewCommandConstructor.
    destruct Hkey as [-> | [-> | ->]]; simpl;
      eexists; split; reflexivity.
Qed.

End Parser.

(** * The properties on sample input *)

Import Sample.

Lemma Parse_scanner_failure_witness :
  Parse "grvrc" tokenName (at_ 3 1) ([inl (newline 1 1); inr "read error"])
  = Some ((None, false, Some "read error"), [])
  /\ Parse "grvrc" tokenName (at_ 3 1) brokenSet
     = Some ((None, false, Some "read error"),
             discardTokensUntilNextCommand (at_ 3 1)
               [inl (word "a" 1 5); inl (word "b" 1 7); inl (newline 1 8);
                inl (word "q" 2 1)]).
Proof.
  split.
  - refine (proj1 (Parse_scanner_failure "grvrc" tokenName (at_ 3 1)
                     _ [inr "read error"] [newline 1 1] _ _) _ _ _).
    + repeat constructor.
    + econstructor; [reflexivity | constructor].
    + reflexivity.
  - refine (proj2 (Parse_scanner_failure "grvrc" tokenName (at_ 3 1)
                     brokenSet brokenSet [] _ _)
              (word "set" 1 1) _ [] "read error" _ _ _ _ _ _ _ _ _).
    + constructor.
    + constructor.
    + reflexivity.
    + reflexivity.
    + reflexivity.
    + exists [], CtkWord, [CtkWord]. split; [reflexivity | constructor].
    + constructor.
    + reflexivity.
Defined.

(** C1 as stated fails: the scanner fails while [set] reads its first
    argument; [Parse] returns the scanner's error, but only after its
    recovery step has taken three more results ([a], [b] and the
    terminator) from the scanner. *)
Lemma Parse_scanner_failure_in_arguments_recovers :
  scan (at_ 3 1) (tl brokenSet)
  = (inr "read error",
     [inl (word "a" 1 5); inl (word "b" 1 7); inl (newline 1 8);
      inl (word "q" 2 1)])
  /\ Parse "grvrc" tokenName (at_ 3 1) brokenSet
     = Some ((None, false, Some "read error"), [inl (word "q" 2 1)])
  /\ ~ (exists r,
         Parse "grvrc" tokenName (at_ 3 1) brokenSet
         = Some (r, [inl (word "a" 1 5); inl (word "b" 1 7);
                     inl (newline 1 8); inl (word "q" 2 1)])).
Proof.
  split; [reflexivity | split; [reflexivity |]].
  intros [r H]. vm_compute in H. discriminate H.
Qed.

Ltac scans_sample :=
  repeat (eapply scans_cons; [reflexivity|]); apply scans_nil.

(** C2 as stated fails: the tokens after [theme] are of the expected types,
    in order and number, yet [Parse] returns an error and no command,
    because [--bogus] is not an option of the theme command. *)
Lemma Parse_theme_unknown_option :
  option_map tokenTypes (lookup "theme" (commandDescriptors "grvrc"))
  = Some (map tokenType (flattenPairs bogusPairs))
  /\ Forall (fun t => err t = None) (flattenPairs bogusPairs)
  /\ Parse "grvrc" tokenName (at_ 2 1) themeBogus
     = Some ((None, false,
              Some ("grvrc:1:7 Invalid option for theme command: "
                    ++ quoted "--bogus")),
             [])
  /\ ~ (exists command scanner',
          Parse "grvrc" tokenName (at_ 2 1) themeBogus
          = Some ((Some command, false, None), scanner')).
Proof.
  split; [reflexivity|].
  split; [repeat constructor|].
  split; [reflexivity|].
  intros (command & scanner' & H). vm_compute in H. discriminate H.
Qed.

Lemma Parse_command_witness :
  exists command scanner',
    expectedCommand "set" [word "foo" 2 5; word "bar" 2 9] = Some command
    /\ Parse "grvrc" tokenName (at_ 3 1) setLine
       = Some ((Some command, false, None), scanner').
Proof.
  eapply (Parse_command "grvrc" tokenName (at_ 3 1) setLine)
    with (terminators := [newline 1 1]) (commandToken := word "set" 2 1)
         (args := [word "foo" 2 5; word "bar" 2 9]).
  - repeat constructor.
  - scans_sample.
  - reflexivity.
  - reflexivity.
  - reflexivity.
  - scans_sample.
  - repeat constructor.
  - intros H. discriminate H.
  - intros H. discriminate H.
Defined.

(** C3: the input is [map a], a line break, [set x y], a line break.  The
    first call to [Parse] fails on the terminator that ends the first line
    and then discards the whole second line; the second call, instead of
    returning the command of the second line, reports the end of the
    input. *)
Lemma Parse_recovery_discards_next_line :
  Parse "grvrc" tokenName (at_ 3 1) mapThenSet
  = Some ((None, false,
           Some ("grvrc:1:6 Expected Word but got Terminator: "
                 ++ quoted (value (newline 1 6)))),
          [])
  /\ Parse "grvrc" tokenName (at_ 3 1) []
     = Some ((None, true, None), [])
  /\ scans (at_ 3 1) mapThenSet [word "map" 1 1; word "a" 1 5; newline 1 6]
       setXY
  /\ Parse "grvrc" tokenName (at_ 3 1) setXY
     = Some ((Some (SetCommand (word "x" 2 5) (word "y" 2 7)), false, None),
             [inl (newline 2 8)]).
Proof.
  split; [reflexivity|].
  split; [reflexivity|].
  split; [scans_sample | reflexivity].
Qed.

Lemma Parse_unexpected_EOF_witness :
  exists e scanner',
    Parse "grvrc" tokenName (at_ 1 8) setTruncated
    = Some ((None, true, Some e), scanner')
    /\ e = generateParseError "grvrc" (eofToken (at_ 1 8)) "Unexpected EOF"
    /\ contains "Unexpected EOF" e.
Proof.
  eapply (Parse_unexpected_EOF "grvrc" tokenName (at_ 1 8) setTruncated)
    with (terminators := []) (commandToken := word "set" 1 1)
         (args := [word "foo" 1 5]).
  - constructor.
  - scans_sample.
  - reflexivity.
  - reflexivity.
  - reflexivity.
  - reflexivity.
  - exists [CtkWord], CtkWord, []. split; [reflexivity | repeat constructor].
  - scans_sample.
  - reflexivity.
  - reflexivity.
  - reflexivity.
Defined.

Lemma themeCommandConstructor_fields_witness :
  exists c,
    themeCommandConstructor "grvrc" (word "theme" 1 1) (flattenPairs themePairs)
    = Some (Some (ThemeCmd c), None)
    /\ themeField "--name" c = Some (word "X" 1 26)
    /\ themeField "--component" c = Some (word "Y" 1 52)
    /\ themeField "--bgcolor" c = Some (word "1" 1 17)
    /\ themeField "--fgcolor" c = Some (word "2" 1 38)
    /\ themeCommandConstructor "grvrc" (word "theme" 1 1)
         (flattenPairs (rev themePairs))
       = Some (Some (ThemeCmd c), None).
Proof.
  destruct (themeCommandConstructor_fields "grvrc" (word "theme" 1 1)
              themePairs) as (c & Hc & Hlast & _ & Hperm).
  - repeat constructor.
  - exists c. split; [exact Hc|].
    split; [apply (Hlast [(option_ "--bgcolor" 1 7, word "1" 1 17)]
                     (option_ "--name" 1 19) (word "X" 1 26)
                     [(option_ "--fgcolor" 1 28, word "2" 1 38);
                      (option_ "--component" 1 40, word "Y" 1 52)]);
            [reflexivity | repeat constructor; discriminate]|].
    split; [apply (Hlast [(option_ "--bgcolor" 1 7, word "1" 1 17);
                          (option_ "--name" 1 19, word "X" 1 26);
                          (option_ "--fgcolor" 1 28, word "2" 1 38)]
                     (option_ "--component" 1 40) (word "Y" 1 52) []);
            [reflexivity | constructor]|].
    split; [apply (Hlast [] (option_ "--bgcolor" 1 7) (word "1" 1 17)
                     [(option_ "--name" 1 19, word "X" 1 26);
                      (option_ "--fgcolor" 1 28, word "2" 1 38);
                      (option_ "--component" 1 40, word "Y" 1 52)]);
            [reflexivity | repeat constructor; discriminate]|].
    split; [apply (Hlast [(option_ "--bgcolor" 1 7, word "1" 1 17);
                          (option_ "--name" 1 19, word "X" 1 26)]
                     (option_ "--fgcolor" 1 28) (word "2" 1 38)
                     [(option_ "--component" 1 40, word "Y" 1 52)]);
            [reflexivity | repeat constructor; discriminate]|].
    apply Hperm.
    + repeat constructor; simpl; intuition discriminate.
    + apply Permutation_rev.
Defined.

Lemma themeCommandConstructor_invalid_option_witness :
  exists optionToken e,
    In optionToken (map fst bogusPairs)
    /\ isThemeOption (value optionToken) = false
    /\ themeCommandConstructor "grvrc" (word "theme" 1 1)
         (flattenPairs bogusPairs)
       = Some (None, Some e)
    /\ e = generateParseError "grvrc" optionToken
             ("Invalid option for theme command: "
              ++ quoted (value optionToken))
    /\ contains (value optionToken) e.
Proof.
  apply (themeCommandConstructor_invalid_option "grvrc" (word "theme" 1 1)
           bogusPairs).
  apply Exists_cons_hd. reflexivity.
Defined.

Lemma varArgs_constructor_witness :
  (exists e,
      addViewCommandConstructor "grvrc" (word "addview" 1 1) []
      = Some (None, Some e)
      /\ e = generateParseError "grvrc" (word "addview" 1 1)
               (usageMessage "addview")
      /\ contains "addview" e)
  /\ (forall first rest,
         exists command,
           addViewCommandConstructor "grvrc" (word "addview" 1 1)
             (first :: rest)
           = Some (Some command, None)
           /\ (command = AddViewCommand first rest
               \/ exists orientation,
                   command = SplitViewCommand orientation first rest)).
Proof.
  apply (varArgs_constructor "grvrc" (word "addview" 1 1)
           {| tokenTypes := []; varArgs := true;
              constructor := addViewCommandConstructor "grvrc" |});
    reflexivity.
Defined.

Lemma splitViewCommandConstructor_orientation_witness :
  splitViewCommandConstructor "grvrc" (word "vsplit" 1 1) [word "tree" 1 8]
  = Some (Some (SplitViewCommand CoVertical (word "tree" 1 8) []), None)
  /\ exists e,
      splitViewCommandConstructor "grvrc" (word "addview" 1 1)
        [word "tree" 1 9]
      = Some (None, Some e).
Proof.
  split.
  - apply (proj1 (proj2 (proj2
             (splitViewCommandConstructor_orientation "grvrc"
                (word "vsplit" 1 1))))).
    reflexivity.
  - apply (proj2 (proj2 (proj2
             (splitViewCommandConstructor_orientation "grvrc"
                (word "addview" 1 1)))));
      discriminate.
Defined.



(** * The further properties on sample input *)

Lemma Parse_blank_input_witness :
  Parse "grvrc" tokenName (at_ 3 1) blankLines
  = Some ((None, true, None), []).
Proof.
  apply (Parse_blank_input "grvrc" tokenName (at_ 3 1) blankLines).
  reflexivity.
Defined.

Lemma Parse_unknown_command_witness :
  Parse "grvrc" tokenName (at_ 3 1)
    (bogusLine ++ tokensOf [word "q" 2 1])%list
  = Some ((None, false,
           Some (generateParseError "grvrc" (word "bogus" 1 1)
                   ("Invalid command " ++ quoted "bogus"))),
          tokensOf [word "q" 2 1]).
Proof.
  eapply (Parse_unknown_command "grvrc" tokenName (at_ 3 1))
    with (terminators := []) (commandToken := word "bogus" 1 1)
         (rest := [word "arg" 1 7]) (r := inl (newline 1 10)).
  - constructor.
  - scans_sample.
  - reflexivity.
  - reflexivity.
  - simpl. intuition discriminate.
  - scans_sample.
  - repeat constructor.
  - reflexivity.
  - reflexivity.
Defined.

Lemma Parse_leading_option_or_invalid_witness :
  exists message,
    Parse "grvrc" tokenName (at_ 3 1) optionLine
    = Some ((None, false,
             Some (generateParseError "grvrc" (option_ "--name" 1 1) message)),
            discardTokensUntilNextCommand (at_ 3 1)
              (tokensOf [space 1 7; word "x" 1 8; newline 1 9;
                         word "q" 2 1]))
    /\ (tokenType (option_ "--name" 1 1) = CtkOption ->
        message = "Unexpected Option " ++ quoted "--name")
    /\ (tokenType (option_ "--name" 1 1) = CtkInvalid ->
        message = "Syntax Error").
Proof.
  eapply (Parse_leading_option_or_invalid "grvrc" tokenName (at_ 3 1)
            optionLine)
    with (terminators := []).
  - constructor.
  - scans_sample.
  - reflexivity.
  - left. reflexivity.
Defined.

Lemma Parse_type_mismatch_witness :
  Parse "grvrc" tokenName (at_ 3 1) mapThenSet
  = Some ((None, false,
           Some (generateParseError "grvrc" (newline 1 6)
                   ("Expected " ++ tokenName CtkWord ++ " but got "
                    ++ tokenName CtkTerminator ++ ": "
                    ++ quoted (value (newline 1 6))))),
          discardTokensUntilNextCommand (at_ 3 1) setXY).
Proof.
  eapply (Parse_type_mismatch "grvrc" tokenName (at_ 3 1) mapThenSet)
    with (terminators := []) (commandToken := word "map" 1 1)
         (args := [word "a" 1 5]) (types1 := [CtkWord])
         (types2 := [CtkWord]).
  - constructor.
  - scans_sample.
  - reflexivity.
  - reflexivity.
  - reflexivity.
  - reflexivity.
  - reflexivity.
  - repeat constructor.
  - scans_sample.
  - reflexivity.
  - reflexivity.
  - discriminate.
  - discriminate.
Defined.

Lemma Parse_lexical_error_in_arguments_witness :
  exists prefix,
    Parse "grvrc" tokenName (at_ 2 1) setUnterminated
    = Some ((None, false,
             Some (prefix ++ "Syntax Error" ++ ": " ++ "Unterminated string")),
            discardTokensUntilNextCommand (at_ 2 1)
              (tokensOf [newline 1 13]))
    /\ generateParseError "grvrc" unterminated "Syntax Error"
       = prefix ++ "Syntax Error" ++ ": " ++ "Unterminated string".
Proof.
  eapply (Parse_lexical_error_in_arguments "grvrc" tokenName (at_ 2 1)
            setUnterminated)
    with (terminators := []) (commandToken := word "set" 1 1)
         (args := [word "foo" 1 5]).
  - constructor.
  - scans_sample.
  - reflexivity.
  - reflexivity.
  - reflexivity.
  - exists [CtkWord], CtkWord, []. split; [reflexivity | repeat constructor].
  - scans_sample.
  - reflexivity.
  - reflexivity.
Defined.

Lemma scan_skips_witness :
  exists skipped : list ConfigToken,
    forallb isWhiteSpaceOrComment skipped = true
    /\ ((tokensOf [space 1 1; word "q" 1 2; newline 1 3]
         = (tokensOf skipped ++ inl (word "q" 1 2)
            :: tokensOf [newline 1 3])%list
         /\ significant (inl (word "q" 1 2)) = true)
        \/ (tokensOf [space 1 1; word "q" 1 2; newline 1 3]
            = tokensOf skipped
            /\ @inl ConfigToken error (word "q" 1 2)
               = inl (eofToken (at_ 2 1))
            /\ tokensOf [newline 1 3] = [])).
Proof.
  apply (scan_skips (at_ 2 1)). reflexivity.
Defined.

Lemma Parse_progress_witness :
  suffix (tokensOf [newline 2 12]) setLine
  /\ (setLine <> [] -> length (tokensOf [newline 2 12]) < length setLine).
Proof.
  apply (Parse_progress "grvrc" tokenName (at_ 3 1) setLine
           (tokensOf [newline 2 12])
           (Some (SetCommand (word "foo" 2 5) (word "bar" 2 9)), false, None)).
  reflexivity.
Defined.

Lemma Parse_result_witness :
  (exists c,
      Some (SetCommand (word "foo" 2 5) (word "bar" 2 9)) = Some c
      /\ false = false /\ @None error = None)
  \/ (Some (SetCommand (word "foo" 2 5) (word "bar" 2 9)) = None
      /\ exists message, @None error = Some message)
  \/ (Some (SetCommand (word "foo" 2 5) (word "bar" 2 9)) = None
      /\ false = true /\ @None error = None).
Proof.
  apply (Parse_result "grvrc" tokenName (at_ 3 1) setLine
           (tokensOf [newline 2 12])).
  reflexivity.
Defined.

Lemma Parse_ignores_white_space_witness :
  stripped (Parse "grvrc" tokenName (at_ 3 1) setLine)
  = stripped
      (Parse "grvrc" tokenName (at_ 3 1)
         (tokensOf [ newline 1 1; word "set" 2 1; word "foo" 2 5;
                     token CtkComment "# c" 2 8; word "bar" 2 9;
                     newline 2 12 ])).
Proof.
  apply (Parse_ignores_white_space "grvrc" tokenName (at_ 3 1)).
  reflexivity.
Defined.

Lemma Parse_fixed_leaves_rest_witness :
  exists command,
    Parse "grvrc" tokenName (at_ 2 1) setSurplus
    = Some ((Some command, false, None),
            tokensOf [space 1 8; word "c" 1 9; newline 1 10]).
Proof.
  eapply (Parse_fixed_leaves_rest "grvrc" tokenName (at_ 2 1) setSurplus)
    with (terminators := []) (commandToken := word "set" 1 1)
         (args := [word "a" 1 5; word "b" 1 7]).
  - constructor.
  - scans_sample.
  - reflexivity.
  - reflexivity.
  - reflexivity.
  - reflexivity.
  - repeat constructor.
  - scans_sample.
  - intros H. discriminate H.
Defined.

Lemma Parse_command_tokens_witness :
  Forall (argumentOf setLine)
    (commandTokens (SetCommand (word "foo" 2 5) (word "bar" 2 9))).
Proof.
  apply (Parse_command_tokens "grvrc" tokenName (at_ 3 1) setLine
           (tokensOf [newline 2 12]) _ false None).
  reflexivity.
Defined.

Lemma Parse_varArgs_takes_line_witness :
  exists command,
    Parse "grvrc" tokenName (at_ 1 19) addviewAtEnd
    = Some ((Some command, false, None), [])
    /\ commandTokens command = [word "log" 1 9; option_ "--flag" 1 13].
Proof.
  eapply (Parse_varArgs_takes_line "grvrc" tokenName (at_ 1 19) addviewAtEnd)
    with (terminators := []) (commandToken := word "addview" 1 1)
         (last := eofToken (at_ 1 19)).
  - constructor.
  - scans_sample.
  - reflexivity.
  - reflexivity.
  - reflexivity.
  - reflexivity.
  - discriminate.
  - repeat constructor.
  - scans_sample.
  - reflexivity.
  - split; reflexivity.
Defined.
